(** * Setup-time secret store provisioning

    A shallow embedding of [pkg/commands/compute/setup/secret_store.go]:
    the [SecretStores] provisioner with its three methods [Predefined],
    [Configure] and [Create].

    The methods talk to four collaborators: the terminal ([Stdout], [Stdin]),
    the progress reporter ([text.Progress]) and the remote API client
    ([api.Interface]).  Every interaction is recorded, in program order, as an
    [Event]; the collaborators' answers are functions of an environment state
    that is threaded through the run. *)

From Stdlib Require Import ZArith Lia.
From stdpp Require Import base strings list gmap.

Local Open Scope string_scope.
Local Open Scope list_scope.
Local Open Scope stdpp_scope.

(** ** Errors *)

(** Go's [error] values as far as the file builds them:
    [errors.New(text)], [fmt.Errorf(prefix + "%w", err)] and
    [fsterrors.RemediationError{Inner, Remediation}].  Errors coming from a
    collaborator are arbitrary values of this type. *)
Inductive error : Type :=
| errors_New (text : string)
| fmt_Errorf_w (prefix : string) (wrapped : error)
| RemediationError (Inner : error) (Remediation : string).

Fixpoint Error (e : error) : string :=
  match e with
  | errors_New text => text
  | fmt_Errorf_w prefix wrapped => prefix +:+ Error wrapped
  | RemediationError Inner _ => Error Inner
  end.

(** [errors.Unwrap]. *)
Definition Unwrap (e : error) : option error :=
  match e with
  | errors_New _ => None
  | fmt_Errorf_w _ wrapped => Some wrapped
  | RemediationError Inner _ => Some Inner
  end.

(** A Go result pair [(value, err)] read the way the callers read it: the
    value is looked at only when [err == nil]. *)
Inductive result (A : Type) : Type :=
| Ok (a : A)
| Err (e : error).
Arguments Ok {A} a.
Arguments Err {A} e.

(** ** Data model *)

(** Modelled from the spec: [manifest.SetupSecretStoreItem] and
    [manifest.SetupSecretStore] are declared outside the files at hand.  The
    code reads [Description] of both and [Items] of the store; the entry's
    optional literal value is the field the specification's data model gives
    to an entry record.  [Setup] maps names to pointers; they are taken
    non-nil, as a loaded manifest has them. *)
Record SetupSecretStoreItem : Type := {
  item_Description : string;
  item_Value : option string
}.

Record SetupSecretStore : Type := {
  Items : gmap string SetupSecretStoreItem;
  Description : string
}.

Record SecretStoreItem : Type := {
  item_Name : string;
  Secret : string
}.

Record SecretStore : Type := {
  Name : string;
  store_Items : list SecretStoreItem
}.

(** [text.Progress] is an interface; what [Create] asks of the field is
    whether it is nil. *)
Inductive text_Progress : Type := progress_attached.

(** The receiver.  [APIClient], [Stdin] and [Stdout] are handles on the
    collaborators and live in the environment. *)
Record SecretStores : Type := {
  AcceptDefaults : bool;
  NonInteractive : bool;
  Progress : option text_Progress;
  ServiceID : string;
  ServiceVersion : Z;
  Setup : gmap string SetupSecretStore;
  required : list SecretStore
}.

Definition set_required (s : SecretStores) (r : list SecretStore) : SecretStores :=
  {| AcceptDefaults := AcceptDefaults s;
     NonInteractive := NonInteractive s;
     Progress := Progress s;
     ServiceID := ServiceID s;
     ServiceVersion := ServiceVersion s;
     Setup := Setup s;
     required := r |}.

(** ** Remote API inputs and outputs *)

Record CreateSecretStoreInput : Type := {
  css_Name : string
}.

Record CreateSecretInput : Type := {
  cs_ID : string;
  cs_Name : string;
  cs_Secret : string
}.

Record CreateResourceInput : Type := {
  cr_ServiceID : string;
  cr_ServiceVersion : Z;
  cr_Name : string;
  cr_ResourceID : string
}.

(** [*fastly.SecretStore] as [Create] reads it. *)
Record fastly_SecretStore : Type := {
  ID : string;
  fastly_Name : string
}.

(** ** Events *)

Inductive Event : Type :=
| Stdout_Break
| Stdout_Output (format : string) (args : list string)
| Stdin_InputSecure (prompt : string) (r : result string)
| Progress_Step (msg : string)
| Progress_Fail
| API_CreateSecretStore (i : CreateSecretStoreInput) (r : result fastly_SecretStore)
| API_CreateSecret (i : CreateSecretInput) (err : option error)
| API_CreateResource (i : CreateResourceInput) (err : option error).

(** The remote calls among the events. *)
Definition is_remote (ev : Event) : bool :=
  match ev with
  | API_CreateSecretStore _ _ | API_CreateSecret _ _ | API_CreateResource _ _ => true
  | _ => false
  end.

Definition is_prompt (ev : Event) : bool :=
  match ev with
  | Stdin_InputSecure _ _ => true
  | _ => false
  end.

Definition remote_calls (tr : list Event) : list Event := filter is_remote tr.
Definition prompts (tr : list Event) : list Event := filter is_prompt tr.

(** ** Collaborators *)

(** What lies outside the file: the terminal reader behind
    [text.InputSecure], the colouring [text.BoldYellow], the text of
    [fsterrors.BugRemediation], the three API
    methods [Create] calls, and the Go runtime's choice of the order in which
    [range] visits a map.  The last is unspecified by the language: any
    enumeration of the map's bindings may come out, and the choice for the
    items of a store may depend on the store being visited.  One value of the
    class fixes the choice for one pass over each map, which is what one call
    of [Configure] makes: [s.Setup] is ranged over once, and the items of each
    store once.  The runtime chooses anew at every [range] statement, so
    successive calls of [Configure] are taken under values of their own. *)
Class Collaborators (E : Type) : Type := {
  text_InputSecure : string → E → result string * E;
  text_BoldYellow : string → string;
  fsterrors_BugRemediation : string;
  CreateSecretStore : CreateSecretStoreInput → E → result fastly_SecretStore * E;
  CreateSecret : CreateSecretInput → E → option error * E;
  CreateResource : CreateResourceInput → E → option error * E;
  range_Setup : gmap string SetupSecretStore → list (string * SetupSecretStore);
  range_Items : string → gmap string SetupSecretStoreItem →
                list (string * SetupSecretStoreItem);
  range_Setup_perm : ∀ m, range_Setup m ≡ₚ map_to_list m;
  range_Items_perm : ∀ name m, range_Items name m ≡ₚ map_to_list m
}.

(** ** The monad of a method body *)

(** The state a method runs in: the receiver it may mutate and the
    environment. *)
Record State (E : Type) : Type := {
  self : SecretStores;
  env : E
}.
Arguments self {E} _.
Arguments env {E} _.

(** A computation returns a value or an error, the events it emitted and the
    state it left. *)
Definition M (E A : Type) : Type := State E → result A * list Event * State E.

Section Monad.
Context {E : Type}.

Definition ret {A} (a : A) : M E A := λ st, (Ok a, [], st).

Definition fail {A} (e : error) : M E A := λ st, (Err e, [], st).

Definition bind {A B} (m : M E A) (f : A → M E B) : M E B :=
  λ st,
    match m st with
    | (Ok a, t1, st1) =>
        match f a st1 with
        | (r, t2, st2) => (r, t1 ++ t2, st2)
        end
    | (Err e, t1, st1) => (Err e, t1, st1)
    end.

Definition emit (ev : Event) : M E unit := λ st, (Ok tt, [ev], st).

Definition get_self : M E SecretStores := λ st, (Ok (self st), [], st).

Definition put_self (s : SecretStores) : M E unit :=
  λ st, (Ok tt, [], {| self := s; env := env st |}).

(** A call into a collaborator: the answer is computed from the
    environment and the event built from the answer is recorded. *)
Definition call {A} (f : E → A * E) (ev : A → Event) : M E A :=
  λ st,
    match f (env st) with
    | (a, e') => (Ok a, [ev a], {| self := self st; env := e' |})
    end.
End Monad.

Notation "'let*' x ':=' m 'in' k" := (bind m (λ x, k))
  (at level 10, x name, m at level 100, k at level 200, only parsing).
Notation "'do' m 'then' k" := (bind m (λ _, k))
  (at level 10, m at level 100, k at level 200, only parsing).

(** ** The methods *)

Section Methods.
Context {E : Type} `{!Collaborators E}.

Definition text_Break : M E unit := emit Stdout_Break.
Definition text_Output (format : string) (args : list string) : M E unit :=
  emit (Stdout_Output format args).
Definition InputSecure (prompt : string) : M E (result string) :=
  call (text_InputSecure prompt) (Stdin_InputSecure prompt).
Definition Step (msg : string) : M E unit := emit (Progress_Step msg).
Definition Fail : M E unit := emit Progress_Fail.

Definition when (b : bool) (m : M E unit) : M E unit :=
  if b then m else ret tt.

(** [Predefined]: [len(s.Setup) > 0]. *)
Definition Predefined : M E bool :=
  let* s := get_self in
  ret (bool_decide (0 < size (Setup s))).

(** The body of the loop over [settings.Items] (lines 71-100); [acc] is
    [store.Items] so far. *)
Definition configure_item (s : SecretStores) (acc : list SecretStoreItem)
    (key : string) (item : SetupSecretStoreItem) : M E (list SecretStoreItem) :=
  let* value :=
    (if negb (AcceptDefaults s) && negb (NonInteractive s) then
       do text_Break then
       do text_Output "Create a secret store entry called '%s'" [key] then
       do when (negb (String.eqb (item_Description item) ""))
               (text_Output (item_Description item) []) then
       do text_Break then
       let* r := InputSecure (text_BoldYellow "Value: ") in
       match r with
       | Err err => fail (fmt_Errorf_w "error reading prompt input: " err)
       | Ok value => ret value
       end
     else ret "") in
  if String.eqb value "" then fail (errors_New "value cannot be blank")
  else ret (acc ++ [{| item_Name := key; Secret := value |}]).

Fixpoint configure_items (s : SecretStores) (acc : list SecretStoreItem)
    (items : list (string * SetupSecretStoreItem)) : M E (list SecretStoreItem) :=
  match items with
  | [] => ret acc
  | (key, item) :: rest =>
      let* acc' := configure_item s acc key item in
      configure_items s acc' rest
  end.

(** The body of the loop over [s.Setup] (lines 57-103). *)
Definition configure_store (name : string) (settings : SetupSecretStore) : M E unit :=
  let* s := get_self in
  do when (negb (AcceptDefaults s) && negb (NonInteractive s))
          (do text_Break then
           do text_Output "Configuring secret store '%s'" [name] then
           when (negb (String.eqb (Description settings) ""))
                (text_Output (Description settings) [])) then
  let* items := configure_items s [] (range_Items name (Items settings)) in
  let* s := get_self in
  put_self (set_required s (required s ++ [{| Name := name; store_Items := items |}])).

Fixpoint configure_stores (stores : list (string * SetupSecretStore)) : M E unit :=
  match stores with
  | [] => ret tt
  | (name, settings) :: rest =>
      do configure_store name settings then
      configure_stores rest
  end.

Definition Configure : M E unit :=
  let* s := get_self in
  configure_stores (range_Setup (Setup s)).

(** The loop over [secretStore.Items] (lines 128-140); [store] is what
    [CreateSecretStore] returned. *)
Fixpoint create_items (store : fastly_SecretStore) (items : list SecretStoreItem)
    : M E unit :=
  match items with
  | [] => ret tt
  | item :: rest =>
      do Step ("Creating secret store entry '" +:+ item_Name item +:+ "'...") then
      let i := {| cs_ID := ID store; cs_Name := item_Name item;
                  cs_Secret := Secret item |} in
      let* err := call (CreateSecret i) (API_CreateSecret i) in
      match err with
      | Some err =>
          do Fail then
          fail (fmt_Errorf_w "error creating secret store entry: " err)
      | None => create_items store rest
      end
  end.

(** The body of the loop over [s.required] (lines 117-155). *)
Definition create_store (s : SecretStores) (secretStore : SecretStore) : M E unit :=
  do Step ("Creating secret store '" +:+ Name secretStore +:+ "'...") then
  let i := {| css_Name := Name secretStore |} in
  let* r := call (CreateSecretStore i) (API_CreateSecretStore i) in
  match r with
  | Err err =>
      do Fail then
      fail (fmt_Errorf_w "error creating secret store: " err)
  | Ok store =>
      do create_items store (store_Items secretStore) then
      do Step ("Creating resource link between service and secret store '"
               +:+ Name secretStore +:+ "'...") then
      let i := {| cr_ServiceID := ServiceID s;
                  cr_ServiceVersion := ServiceVersion s;
                  cr_Name := fastly_Name store;
                  cr_ResourceID := ID store |} in
      let* err := call (CreateResource i) (API_CreateResource i) in
      match err with
      | Some err =>
          do Fail then
          fail (fmt_Errorf_w
                  ("error creating resource link between the service '"
                   +:+ ServiceID s +:+ "' and the secret store '"
                   +:+ fastly_Name store +:+ "': ") err)
      | None => ret tt
      end
  end.

Fixpoint create_stores (s : SecretStores) (stores : list SecretStore) : M E unit :=
  match stores with
  | [] => ret tt
  | secretStore :: rest =>
      do create_store s secretStore then
      create_stores s rest
  end.

Definition Create : M E unit :=
  let* s := get_self in
  match Progress s with
  | None =>
      fail (RemediationError
              (errors_New "internal logic error: no text.Progress configured for setup.SecretStores")
              fsterrors_BugRemediation)
  | Some _ => create_stores s (required s)
  end.

End Methods.

(** ** A scripted environment

    The environment of a test: the terminal answers from a script, the remote
    service fails at a chosen call and otherwise hands out identifiers derived
    from the store's name. *)
Module Mock.

Record Env : Type := {
  stdin : list (result string);
  fail_at : option nat;
  calls_made : nat
}.

Definition remote {A} (ok err : A) (e : Env) : A * Env :=
  (if bool_decide (fail_at e = Some (calls_made e)) then err else ok,
   {| stdin := stdin e; fail_at := fail_at e; calls_made := S (calls_made e) |}).

Definition read (e : Env) : result string * Env :=
  match stdin e with
  | [] => (Err (errors_New "EOF"), e)
  | r :: rest =>
      (r, {| stdin := rest; fail_at := fail_at e; calls_made := calls_made e |})
  end.

Definition order {A} (backwards : bool) (l : list A) : list A :=
  if backwards then reverse l else l.

Definition order_perm {A} (backwards : bool) (l : list A)
    : order backwards l ≡ₚ l :=
  match backwards as b return order b l ≡ₚ l with
  | true => reverse_Permutation l
  | false => Permutation_refl l
  end.

(** [backwards] picks one of two map iteration orders. *)
Definition collaborators (backwards : bool) : Collaborators Env := {|
  text_InputSecure := λ _, read;
  text_BoldYellow := λ s, s;
  fsterrors_BugRemediation := "file an issue";
  CreateSecretStore := λ i,
    remote (Ok {| ID := "id-" +:+ css_Name i; fastly_Name := css_Name i |})
           (Err (errors_New "remote failure"));
  CreateSecret := λ _, remote None (Some (errors_New "remote failure"));
  CreateResource := λ _, remote None (Some (errors_New "remote failure"));
  range_Setup := λ m, order backwards (map_to_list m);
  range_Items := λ _ m, order backwards (map_to_list m);
  range_Setup_perm := λ m, order_perm backwards (map_to_list m);
  range_Items_perm := λ _ m, order_perm backwards (map_to_list m)
|}.

Definition provisioner (accept nonint : bool) (progress : option text_Progress)
    (setup : gmap string SetupSecretStore) : SecretStores :=
  {| AcceptDefaults := accept; NonInteractive := nonint; Progress := progress;
     ServiceID := "svc"; ServiceVersion := 1; Setup := setup; required := [] |}.

(** A provisioner that [Configure] has already filled. *)
Definition configured (progress : option text_Progress) (stores : list SecretStore)
    : SecretStores :=
  {| AcceptDefaults := false; NonInteractive := false; Progress := progress;
     ServiceID := "svc"; ServiceVersion := 1; Setup := ∅; required := stores |}.

Definition tokens_store : SecretStore :=
  {| Name := "tokens";
     store_Items := [{| item_Name := "api-key"; Secret := "abc123" |}] |}.

Definition start (s : SecretStores) (answers : list (result string))
    (failing : option nat) : State Env :=
  {| self := s;
     env := {| stdin := answers; fail_at := failing; calls_made := 0 |} |}.

Definition entry (d : string) (v : option string) : SetupSecretStoreItem :=
  {| item_Description := d; item_Value := v |}.

Definition store (d : string) (items : list (string * SetupSecretStoreItem))
    : SetupSecretStore :=
  {| Items := list_to_map items; Description := d |}.

(** [{"tokens": {items: {"api-key": {}}}}] *)
Definition tokens : gmap string SetupSecretStore :=
  {[ "tokens" := store "" [("api-key", entry "" None)] ]}.

(** The same, with a literal value configured for the entry. *)
Definition preset : gmap string SetupSecretStore :=
  {[ "tokens" := store "" [("api-key", entry "" (Some "abc123"))] ]}.

(** A store that declares no entry. *)
Definition vault : gmap string SetupSecretStore :=
  {[ "vault" := store "spare" [] ]}.

(** Two stores, the first with two entries. *)
Definition two_stores : gmap string SetupSecretStore :=
  list_to_map [("alpha", store "first" [("k1", entry "" None); ("k2", entry "" None)]);
               ("beta", store "" [("k3", entry "" (Some "preset"))])].

End Mock.

(** * The vocabulary of the properties *)

(** ** What [Configure] does *)

Definition interactive (s : SecretStores) : bool :=
  negb (AcceptDefaults s) && negb (NonInteractive s).

Definition blank : error := errors_New "value cannot be blank".

(** The values the operator typed, in order. *)
Definition answer (ev : Event) : option string :=
  match ev with
  | Stdin_InputSecure _ (Ok v) => Some v
  | _ => None
  end.

Definition answers (tr : list Event) : list string := omap answer tr.

(** The error a prompt event makes [Configure] return, if any. *)
Definition prompt_verdict (ev : Event) : option error :=
  match ev with
  | Stdin_InputSecure _ (Err e) => Some (fmt_Errorf_w "error reading prompt input: " e)
  | Stdin_InputSecure _ (Ok v) => if String.eqb v "" then Some blank else None
  | _ => None
  end.

Definition failure {A} (r : result A) : option error :=
  match r with
  | Ok _ => None
  | Err e => Some e
  end.

(** Reading a trace from its start: the first prompt with a verdict ends the
    trace and is the error returned. *)
Fixpoint stops_at_verdict (tr : list Event) (err : option error) : Prop :=
  match tr with
  | [] => True
  | ev :: tr' =>
      match prompt_verdict ev with
      | Some e => tr' = [] ∧ err = Some e
      | None => stops_at_verdict tr' err
      end
  end.

Definition clean (tr : list Event) : Prop :=
  Forall (λ ev, prompt_verdict ev = None) tr.

(** The stores [Configure] adds hold no blank secret. *)
Definition no_blank (stores : list SecretStore) : Prop :=
  Forall (λ store, Forall (λ it, Secret it ≠ "") (store_Items store)) stores.

Definition item_keys (secretStore : SecretStore) : list string :=
  item_Name <$> store_Items secretStore.

Definition item_intro (key : string) (item : SetupSecretStoreItem) : list Event :=
  [Stdout_Break; Stdout_Output "Create a secret store entry called '%s'" [key]]
  ++ (if String.eqb (item_Description item) "" then []
      else [Stdout_Output (item_Description item) []])
  ++ [Stdout_Break].

Definition store_intro (name : string) (settings : SetupSecretStore) : list Event :=
  [Stdout_Break; Stdout_Output "Configuring secret store '%s'" [name]]
  ++ (if String.eqb (Description settings) "" then []
      else [Stdout_Output (Description settings) []]).

Section Ranging.
Context {E : Type} `{!Collaborators E}.

(** The keys of a store's items in the order the iteration yields them. *)
Definition keys_in_range (p : string * SetupSecretStore) : list string :=
  (range_Items p.1 (Items p.2)).*1.

End Ranging.

(** ** What [Create] does *)

Definition entry_input (store : fastly_SecretStore) (it : SecretStoreItem)
    : CreateSecretInput :=
  {| cs_ID := ID store; cs_Name := item_Name it; cs_Secret := Secret it |}.

Definition link_input (s : SecretStores) (store : fastly_SecretStore)
    : CreateResourceInput :=
  {| cr_ServiceID := ServiceID s;
     cr_ServiceVersion := ServiceVersion s;
     cr_Name := fastly_Name store;
     cr_ResourceID := ID store |}.

Definition store_context : string := "error creating secret store: ".
Definition entry_context : string := "error creating secret store entry: ".
Definition link_context (s : SecretStores) (name : string) : string :=
  "error creating resource link between the service '" +:+ ServiceID s
  +:+ "' and the secret store '" +:+ name +:+ "': ".

(** The events of the three steps. *)
Definition store_events (x : SecretStore) (r : result fastly_SecretStore) : list Event :=
  [Progress_Step ("Creating secret store '" +:+ Name x +:+ "'...");
   API_CreateSecretStore {| css_Name := Name x |} r].

Definition entry_events (store : fastly_SecretStore) (err : option error)
    (it : SecretStoreItem) : list Event :=
  [Progress_Step ("Creating secret store entry '" +:+ item_Name it +:+ "'...");
   API_CreateSecret (entry_input store it) err].

Definition entries_created (store : fastly_SecretStore) (items : list SecretStoreItem)
    : list Event :=
  flat_map (entry_events store None) items.

Definition link_events (s : SecretStores) (x : SecretStore) (store : fastly_SecretStore)
    (err : option error) : list Event :=
  [Progress_Step ("Creating resource link between service and secret store '"
                  +:+ Name x +:+ "'...");
   API_CreateResource (link_input s store) err].

(** The four ways one turn of the loop over [s.required] can go. *)
Inductive store_run (s : SecretStores) (x : SecretStore)
    : result unit → list Event → Prop :=
| store_failed e0 :
    store_run s x (Err (fmt_Errorf_w store_context e0))
      (store_events x (Err e0) ++ [Progress_Fail])
| entry_failed store done it rest e0 :
    store_Items x = done ++ it :: rest →
    store_run s x (Err (fmt_Errorf_w entry_context e0))
      (store_events x (Ok store) ++ entries_created store done
       ++ entry_events store (Some e0) it ++ [Progress_Fail])
| link_failed store e0 :
    store_run s x (Err (fmt_Errorf_w (link_context s (fastly_Name store)) e0))
      (store_events x (Ok store) ++ entries_created store (store_Items x)
       ++ link_events s x store (Some e0) ++ [Progress_Fail])
| linked store :
    store_run s x (Ok tt)
      (store_events x (Ok store) ++ entries_created store (store_Items x)
       ++ link_events s x store None).

(** The loop: turns that succeed, then at most one that fails. *)
Inductive stores_run (s : SecretStores) : list SecretStore → result unit → list Event → Prop :=
| run_done : stores_run s [] (Ok tt) []
| run_next x rest r t1 t2 :
    store_run s x (Ok tt) t1 → stores_run s rest r t2 →
    stores_run s (x :: rest) r (t1 ++ t2)
| run_abort x rest e t1 :
    store_run s x (Err e) t1 →
    stores_run s (x :: rest) (Err e) t1.

(** ** Reading the remote calls off a trace *)

Definition is_link (ev : Event) : bool :=
  match ev with
  | API_CreateResource _ _ => true
  | _ => false
  end.

(** How many linkage calls a trace holds. *)
Definition links (tr : list Event) : nat := length (filter is_link tr).

Definition store_call (x : SecretStore) (r : result fastly_SecretStore) : Event :=
  API_CreateSecretStore {| css_Name := Name x |} r.

Definition entry_call (store : fastly_SecretStore) (err : option error)
    (it : SecretStoreItem) : Event :=
  API_CreateSecret (entry_input store it) err.

Definition link_call (s : SecretStores) (store : fastly_SecretStore)
    (err : option error) : Event :=
  API_CreateResource (link_input s store) err.

(** The remote calls of a resource that is created, filled and linked. *)
Definition store_calls (s : SecretStores) (x : SecretStore) (store : fastly_SecretStore)
    : list Event :=
  store_call x (Ok store) :: (entry_call store None <$> store_Items x)
  ++ [link_call s store None].

(** ** Failing remote calls *)

(** The error a remote call came back with, if any. *)
Definition call_failed (ev : Event) : option error :=
  match ev with
  | API_CreateSecretStore _ (Err e) => Some e
  | API_CreateSecret _ (Some e) => Some e
  | API_CreateResource _ (Some e) => Some e
  | _ => None
  end.

(** The context [Create] puts in front of the error of a failed call. *)
Definition failure_context (s : SecretStores) (ev : Event) : string :=
  match ev with
  | API_CreateSecretStore _ _ => store_context
  | API_CreateSecret _ _ => entry_context
  | API_CreateResource i _ => link_context s (cr_Name i)
  | _ => ""
  end.

(** Reading a trace from its start: the first failed call is followed by
    [Progress.Fail()] and nothing else, and its error, wrapped, is the one
    returned. *)
Fixpoint stops_at_failure (s : SecretStores) (tr : list Event) (err : option error)
    : Prop :=
  match tr with
  | [] => True
  | ev :: tr' =>
      match call_failed ev with
      | Some e0 =>
          tr' = [Progress_Fail] ∧
          err = Some (fmt_Errorf_w (failure_context s ev) e0)
      | None => stops_at_failure s tr' err
      end
  end.

Definition sound (tr : list Event) : Prop :=
  Forall (λ ev, call_failed ev = None) tr.

(** ** Whole runs *)

Definition set_modes (s : SecretStores) (accept nonint : bool) : SecretStores :=
  {| AcceptDefaults := accept;
     NonInteractive := nonint;
     Progress := Progress s;
     ServiceID := ServiceID s;
     ServiceVersion := ServiceVersion s;
     Setup := Setup s;
     required := required s |}.

(** [Configure], then [Create] when [Configure] succeeded: the remote calls
    issued. *)
Definition provision {E : Type} `{!Collaborators E} (st : State E) : list Event :=
  match Configure st with
  | (Ok _, _, st1) => remote_calls (Create st1).1.2
  | (Err _, _, _) => []
  end.

(** ** Scenarios *)

Module Scenarios.

Definition forwards : Collaborators Mock.Env := Mock.collaborators false.
Definition backwards : Collaborators Mock.Env := Mock.collaborators true.

Definition attached : option text_Progress := Some progress_attached.

(** What the scripted service answers to the creation of "tokens". *)
Definition created : fastly_SecretStore :=
  {| ID := "id-tokens"; fastly_Name := "tokens" |}.

Definition remote_failure : error := errors_New "remote failure".

(** Non-interactive mode, one entry with the literal "abc123" configured. *)
Definition preset_quiet : State Mock.Env :=
  Mock.start (Mock.provisioner false true None Mock.preset) [] None.

(** Non-interactive mode, one entry with nothing configured. *)
Definition tokens_quiet : State Mock.Env :=
  Mock.start (Mock.provisioner false true None Mock.tokens) [] None.

(** Interactive mode, the operator types "abc123". *)
Definition tokens_asked : State Mock.Env :=
  Mock.start (Mock.provisioner false false attached Mock.tokens) [Ok "abc123"] None.

(** Interactive mode, the terminal is closed. *)
Definition tokens_closed : State Mock.Env :=
  Mock.start (Mock.provisioner false false attached Mock.tokens) [] None.

(** Interactive mode, the operator types nothing. *)
Definition tokens_blank : State Mock.Env :=
  Mock.start (Mock.provisioner false false attached Mock.tokens) [Ok ""] None.

(** After [Configure]: one store with one entry, the remote service
    failing at the call of the given rank. *)
Definition tokens_ready (progress : option text_Progress) (failing : option nat)
    : State Mock.Env :=
  Mock.start (Mock.configured progress [Mock.tokens_store]) [] failing.

Definition vault_asked : State Mock.Env :=
  Mock.start (Mock.provisioner false false attached Mock.vault) [] None.

Definition vault_ready : State Mock.Env :=
  Mock.start (Mock.configured attached [{| Name := "vault"; store_Items := [] |}])
             [] None.

Definition two_asked : State Mock.Env :=
  Mock.start (Mock.provisioner false false attached Mock.two_stores)
             [Ok "a"; Ok "b"; Ok "c"] None.

End Scenarios.

(** ** Stores that were linked *)

Definition is_linked (ev : Event) : bool :=
  match ev with
  | API_CreateResource _ None => true
  | _ => false
  end.

(** How many linkage calls of a trace succeeded: the number of required
    stores [Create] is done with. *)
Definition linked_count (tr : list Event) : nat := length (filter is_linked tr).

(** ** Progress messages and terminal output *)

Definition store_message (name : string) : string :=
  "Creating secret store '" +:+ name +:+ "'...".

Definition entry_message (key : string) : string :=
  "Creating secret store entry '" +:+ key +:+ "'...".

Definition link_message (name : string) : string :=
  "Creating resource link between service and secret store '" +:+ name +:+ "'...".

Definition step (ev : Event) : option string :=
  match ev with
  | Progress_Step msg => Some msg
  | _ => None
  end.

(** The messages handed to [Progress.Step], in order. *)
Definition steps (tr : list Event) : list string := omap step tr.

(** The messages of a store that is created, filled and linked: they are
    made of the names of the store and of its entries. *)
Definition store_plan (x : SecretStore) : list string :=
  store_message (Name x)
  :: ((λ it, entry_message (item_Name it)) <$> store_Items x)
  ++ [link_message (Name x)].

Definition plan (stores : list SecretStore) : list string :=
  flat_map store_plan stores.

(** The message that names a creation request. *)
Definition announcement (ev : Event) : option string :=
  match ev with
  | API_CreateSecretStore i _ => Some (store_message (css_Name i))
  | API_CreateSecret i _ => Some (entry_message (cs_Name i))
  | _ => None
  end.

(** A progress step followed by the call it announces. *)
Definition announced (p : string * Event) : list Event := [Progress_Step p.1; p.2].

Definition well_announced (p : string * Event) : Prop :=
  is_remote p.2 = true ∧ ∀ m, announcement p.2 = Some m → p.1 = m.



(** Neither a failed call nor a reported failure. *)
Definition uneventful (ev : Event) : Prop :=
  call_failed ev = None ∧ ev ≠ Progress_Fail.

Definition is_stdout (ev : Event) : bool :=
  match ev with
  | Stdout_Break | Stdout_Output _ _ => true
  | _ => false
  end.

(** What was written to [Stdout], in order. *)
Definition written (tr : list Event) : list Event := filter is_stdout tr.

(** The number of entries a setup mapping declares. *)
Definition declared_entries (m : gmap string SetupSecretStore) : nat :=
  sum_list_with (λ p, size (Items p.2)) (map_to_list m).

Section Output.
Context {E : Type} `{!Collaborators E}.

Definition items_output (items : list (string * SetupSecretStoreItem)) : list Event :=
  flat_map (λ kv, item_intro kv.1 kv.2) items.

Definition store_output (p : string * SetupSecretStore) : list Event :=
  store_intro p.1 p.2 ++ items_output (range_Items p.1 (Items p.2)).

(** What an interactive [Configure] that asks about every entry writes: it
    is made of the names, the keys and the descriptions of the setup. *)
Definition expected_output (s : SecretStores) : list Event :=
  if interactive s then flat_map store_output (range_Setup (Setup s)) else [].

End Output.

(** ** The store commands

    [GetStoreCommand.Exec] of the secret store commands and
    [DeleteCommand.Exec] of [pkg/commands/configstore/delete.go].  The
    commands reach the API client, the error log and the output writer
    through [cmd.Globals] and their embedded JSON helper; what these do is
    recorded as events of their own. *)

Record GetSecretStoreInput : Type := {
  gss_ID : string
}.

Record DeleteConfigStoreInput : Type := {
  dcs_ID : string
}.

(** The values the commands hand to [WriteJSON]: the fetched store, and the
    anonymous struct [{ID, Deleted}] of the delete command. *)
Inductive json_value : Type :=
| JSON_SecretStore (o : fastly_SecretStore)
| JSON_Deleted (id : string) (deleted : bool).

Inductive CommandEvent : Type :=
| API_GetSecretStore (i : GetSecretStoreInput) (r : result fastly_SecretStore)
| API_DeleteConfigStore (i : DeleteConfigStoreInput) (err : option error)
| ErrLog_Add (err : error)
| Out_WriteJSON (value : json_value) (ok : bool) (err : option error)
| Out_PrintSecretStore (prefix : string) (o : fastly_SecretStore)
| Out_Success (format : string) (args : list string).

(** What lies outside the two files: the API methods, the two [WriteJSON]
    methods (of the secret store commands' [jsonOutput] and of
    [cmd.JSONOutput]; each gets its receiver's flag and the value, and
    answers [(ok, err)]), and the error [fsterr.ErrInvalidVerboseJSONCombo]. *)
Class CommandCollaborators (E : Type) : Type := {
  GetSecretStore : GetSecretStoreInput → E → result fastly_SecretStore * E;
  DeleteConfigStore : DeleteConfigStoreInput → E → option error * E;
  jsonOutput_WriteJSON : bool → json_value → E → (bool * option error) * E;
  JSONOutput_WriteJSON : bool → json_value → E → (bool * option error) * E;
  ErrInvalidVerboseJSONCombo : error
}.

(** [cmd.Globals.Verbose()] reads a flag; [manifest] is not used by
    [Exec]. *)
Record GetStoreCommand : Type := {
  get_Verbose : bool;
  jsonOutput_enabled : bool;
  Input : GetSecretStoreInput
}.

Record DeleteCommand : Type := {
  delete_Verbose : bool;
  JSONOutput_Enabled : bool;
  input : DeleteConfigStoreInput
}.

Section Commands.
Context {E : Type} `{!CommandCollaborators E}.

(** [GetStoreCommand.Exec]: the error returned, the events and the
    environment left. *)
Definition GetStoreCommand_Exec (cmd : GetStoreCommand) (e : E)
    : option error * list CommandEvent * E :=
  if get_Verbose cmd && jsonOutput_enabled cmd then
    (Some ErrInvalidVerboseJSONCombo, [], e)
  else
    match GetSecretStore (Input cmd) e with
    | (Err err, e1) =>
        (Some err, [API_GetSecretStore (Input cmd) (Err err); ErrLog_Add err], e1)
    | (Ok o, e1) =>
        match jsonOutput_WriteJSON (jsonOutput_enabled cmd) (JSON_SecretStore o) e1 with
        | ((ok, err), e2) =>
            if ok then
              (err,
               [API_GetSecretStore (Input cmd) (Ok o);
                Out_WriteJSON (JSON_SecretStore o) ok err],
               e2)
            else
              (None,
               [API_GetSecretStore (Input cmd) (Ok o);
                Out_WriteJSON (JSON_SecretStore o) ok err;
                Out_PrintSecretStore "" o],
               e2)
        end
    end.

(** [DeleteCommand.Exec]. *)
Definition DeleteCommand_Exec (cmd : DeleteCommand) (e : E)
    : option error * list CommandEvent * E :=
  if delete_Verbose cmd && JSONOutput_Enabled cmd then
    (Some ErrInvalidVerboseJSONCombo, [], e)
  else
    match DeleteConfigStore (input cmd) e with
    | (Some err, e1) =>
        (Some err, [API_DeleteConfigStore (input cmd) (Some err); ErrLog_Add err], e1)
    | (None, e1) =>
        if JSONOutput_Enabled cmd then
          let o := JSON_Deleted (dcs_ID (input cmd)) true in
          match JSONOutput_WriteJSON (JSONOutput_Enabled cmd) o e1 with
          | ((ok, err), e2) =>
              (err,
               [API_DeleteConfigStore (input cmd) None; Out_WriteJSON o ok err],
               e2)
          end
        else
          (None,
           [API_DeleteConfigStore (input cmd) None;
            Out_Success "Deleted config store %s" [dcs_ID (input cmd)]],
           e1)
    end.

End Commands.

(** What a command shows to its user. *)
Definition is_output (ev : CommandEvent) : bool :=
  match ev with
  | Out_WriteJSON _ _ _ | Out_PrintSecretStore _ _ | Out_Success _ _ => true
  | _ => false
  end.

Definition is_call (ev : CommandEvent) : bool :=
  match ev with
  | API_GetSecretStore _ _ | API_DeleteConfigStore _ _ => true
  | _ => false
  end.

Definition logged (tr : list CommandEvent) : list error :=
  omap (λ ev, match ev with ErrLog_Add err => Some err | _ => None end) tr.

(** The store an output event shows. *)
Definition shown (ev : CommandEvent) : option fastly_SecretStore :=
  match ev with
  | Out_WriteJSON (JSON_SecretStore o) _ _ => Some o
  | Out_PrintSecretStore _ o => Some o
  | _ => None
  end.


(** A scripted environment for the commands: fixed replies. *)
Module CommandMock.

Record Env : Type := {
  fetched : result fastly_SecretStore;
  deleted : option error;
  encoded : option error
}.

(** [WriteJSON] as a JSON helper would do it: nothing when the flag is off,
    the encoder's verdict when it is on. *)
Definition write (enabled : bool) (v : json_value) (e : Env)
    : (bool * option error) * Env :=
  if enabled then ((true, encoded e), e) else ((false, None), e).

Definition collaborators : CommandCollaborators Env := {|
  GetSecretStore := λ _ e, (fetched e, e);
  DeleteConfigStore := λ _ e, (deleted e, e);
  jsonOutput_WriteJSON := write;
  JSONOutput_WriteJSON := write;
  ErrInvalidVerboseJSONCombo := errors_New "verbose and json"
|}.

Definition healthy : Env :=
  {| fetched := Ok {| ID := "st0"; fastly_Name := "tokens" |};
     deleted := None; encoded := None |}.

Definition broken : Env :=
  {| fetched := Err (errors_New "not found");
     deleted := Some (errors_New "not found");
     encoded := None |}.

Definition get (verbose json : bool) : GetStoreCommand :=
  {| get_Verbose := verbose; jsonOutput_enabled := json;
     Input := {| gss_ID := "st0" |} |}.

Definition delete (verbose json : bool) : DeleteCommand :=
  {| delete_Verbose := verbose; JSONOutput_Enabled := json;
     input := {| dcs_ID := "cs0" |} |}.

End CommandMock.

(** ** More scenarios *)

Module MoreScenarios.

(** Nothing declared, interactive mode. *)
Definition nothing_asked : State Mock.Env :=
  Mock.start (Mock.provisioner false false (Some progress_attached) ∅) [] None.

(** Interactive mode, answers for two rounds of questions. *)
Definition tokens_asked_twice : State Mock.Env :=
  Mock.start (Mock.provisioner false false (Some progress_attached) Mock.tokens)
             [Ok "abc123"; Ok "def456"] None.


Definition api_key : SecretStoreItem :=
  {| item_Name := "api-key"; Secret := "abc123" |}.

Definition vault_store : SecretStore := {| Name := "vault"; store_Items := [] |}.

(** After [Configure]: a store with one entry, then a store with none. *)
Definition vault_second : State Mock.Env :=
  Mock.start (Mock.configured (Some progress_attached) [Mock.tokens_store; vault_store])
             [] None.

(** Two stores, answers for two rounds of questions. *)
Definition two_asked_twice : State Mock.Env :=
  Mock.start (Mock.provisioner false false (Some progress_attached) Mock.two_stores)
             [Ok "a"; Ok "b"; Ok "c"; Ok "d"; Ok "e"; Ok "f"] None.

End MoreScenarios.

(** * Properties *)

(** ** Traces of [Configure] *)

Lemma clean_stops tr err : clean tr → stops_at_verdict tr err.
Proof.
  induction 1 as [|ev tr Hev _ IH]; simpl; [exact I|].
  rewrite Hev. exact IH.
Qed.

Lemma stops_app_clean t1 t2 err :
  clean t1 → stops_at_verdict t2 err → stops_at_verdict (t1 ++ t2) err.
Proof.
  induction 1 as [|ev tr Hev _ IH]; simpl; [auto|].
  rewrite Hev. exact IH.
Qed.

Lemma stops_split tr err pre ev post e :
  stops_at_verdict tr err → tr = pre ++ ev :: post → prompt_verdict ev = Some e →
  post = [] ∧ err = Some e.
Proof.
  intros Hstop -> Hev. induction pre as [|x pre IH]; simpl in Hstop.
  - rewrite Hev in Hstop. exact Hstop.
  - destruct (prompt_verdict x).
    + destruct Hstop as [Hnil _]. destruct pre; discriminate.
    + auto.
Qed.

Lemma answers_app t1 t2 : answers (t1 ++ t2) = answers t1 ++ answers t2.
Proof. apply omap_app. Qed.

Section ConfigureFacts.
Context {E : Type} `{!Collaborators E}.

Lemma configure_item_quiet s acc key item (st : State E) :
  interactive s = false →
  configure_item s acc key item st = (Err blank, [], st).
Proof.
  unfold interactive, configure_item. intros ->. reflexivity.
Qed.

Lemma configure_item_prompted s acc key item (st : State E) :
  interactive s = true →
  configure_item s acc key item st =
    let prompt := text_BoldYellow "Value: " in
    let '(r, e') := text_InputSecure prompt (env st) in
    (match r with
     | Err err => Err (fmt_Errorf_w "error reading prompt input: " err)
     | Ok value =>
         if String.eqb value "" then Err blank
         else Ok (acc ++ [{| item_Name := key; Secret := value |}])
     end,
     item_intro key item ++ [Stdin_InputSecure prompt r],
     {| self := self st; env := e' |}).
Proof.
  unfold interactive, configure_item, item_intro. intros ->.
  unfold bind, text_Break, text_Output, InputSecure, call, emit, when, ret, fail.
  cbn.
  destruct (String.eqb (item_Description item) ""); cbn;
    destruct (text_InputSecure (text_BoldYellow "Value: ") (env st)) as [[v|err] e'];
    cbn; try reflexivity;
    destruct (String.eqb v ""); reflexivity.
Qed.

(** One turn of the loop over the items. *)
Lemma configure_item_spec s acc key item (st : State E) r tr st' :
  configure_item s acc key item st = (r, tr, st') →
  self st' = self st ∧
  match r with
  | Ok acc' =>
      ∃ v, v ≠ "" ∧ acc' = acc ++ [{| item_Name := key; Secret := v |}] ∧
           answers tr = [v] ∧ clean tr
  | Err e => stops_at_verdict tr (Some e)
  end.
Proof.
  destruct (interactive s) eqn:Hi.
  - rewrite configure_item_prompted by exact Hi. cbn zeta. unfold item_intro.
    destruct (text_InputSecure _ (env st)) as [[v|err] e'].
    + destruct (String.eqb_spec v "") as [->|Hv]; intros [= <- <- <-];
        (split; [reflexivity|]).
      * destruct (String.eqb (item_Description item) ""); simpl; auto.
      * exists v. split; [exact Hv|]. split; [reflexivity|].
        assert (prompt_verdict (Stdin_InputSecure (text_BoldYellow "Value: ") (Ok v))
                = None) as Hp.
        { simpl. destruct (String.eqb_spec v ""); [contradiction|reflexivity]. }
        destruct (String.eqb (item_Description item) "");
          (split; [reflexivity|]); repeat constructor; exact Hp.
    + intros [= <- <- <-]. split; [reflexivity|].
      destruct (String.eqb (item_Description item) ""); simpl; auto.
  - rewrite configure_item_quiet by exact Hi. intros [= <- <- <-].
    split; [reflexivity|exact I].
Qed.

(** The loop over the items of one store. *)
Lemma configure_items_spec s items : ∀ acc (st : State E) r tr st',
  configure_items s acc items st = (r, tr, st') →
  self st' = self st ∧
  match r with
  | Ok acc' =>
      ∃ new, acc' = acc ++ new ∧ item_Name <$> new = items.*1 ∧
             Secret <$> new = answers tr ∧
             Forall (λ it, Secret it ≠ "") new ∧ clean tr
  | Err e => stops_at_verdict tr (Some e)
  end.
Proof.
  induction items as [|[key item] rest IH]; intros acc st r tr st'; simpl.
  - intros [= <- <- <-]. split; [reflexivity|].
    exists []. rewrite app_nil_r. repeat split; constructor.
  - unfold bind.
    destruct (configure_item s acc key item st) as [[[acc1|e] t1] st1] eqn:H1;
      apply configure_item_spec in H1 as [Hs1 H1].
    + destruct (configure_items s acc1 rest st1) as [[r2 t2] st2] eqn:H2.
      apply IH in H2 as [Hs2 H2]. intros [= <- <- <-].
      split; [congruence|].
      destruct H1 as (v & Hv & -> & Ha1 & Hc1).
      destruct r2 as [acc2|e].
      * destruct H2 as (new & -> & Hn & Hsec & Hnb & Hc2).
        exists ({| item_Name := key; Secret := v |} :: new).
        rewrite <- app_assoc. split; [reflexivity|].
        rewrite !fmap_cons, Hn, Hsec, answers_app, Ha1. simpl.
        repeat split; [constructor; [exact Hv | exact Hnb] |].
        apply Forall_app; auto.
      * apply stops_app_clean; assumption.
    + intros [= <- <- <-]. split; [exact Hs1 | exact H1].
Qed.

Lemma configure_items_quiet s items acc (st : State E) :
  interactive s = false →
  configure_items s acc items st =
    (match items with [] => Ok acc | _ :: _ => Err blank end, [], st).
Proof.
  intros Hi. destruct items as [|[key item] rest]; simpl; [reflexivity|].
  unfold bind. rewrite configure_item_quiet by exact Hi. reflexivity.
Qed.

Lemma range_Items_nil name (m : gmap string SetupSecretStoreItem) :
  range_Items name m = [] ↔ m = ∅.
Proof.
  split.
  - intros Hnil. apply map_to_list_empty_iff.
    apply Permutation_nil_r. rewrite <- Hnil. symmetry. apply range_Items_perm.
  - intros ->. apply Permutation_nil_r.
    rewrite (range_Items_perm name ∅). rewrite map_to_list_empty. reflexivity.
Qed.

Lemma store_intro_clean name settings : clean (store_intro name settings).
Proof.
  unfold store_intro, clean.
  destruct (String.eqb (Description settings) ""); repeat constructor.
Qed.

Lemma store_intro_answers name settings : answers (store_intro name settings) = [].
Proof.
  unfold store_intro. destruct (String.eqb (Description settings) ""); reflexivity.
Qed.

(** One turn of the loop over the stores, unfolded down to the loop over
    its items. *)
Lemma configure_store_unfold name settings (st : State E) :
  configure_store name settings st =
    let s := self st in
    let intro := if interactive s then store_intro name settings else [] in
    match configure_items s [] (range_Items name (Items settings)) st with
    | (Ok items, t, st1) =>
        (Ok tt, intro ++ t,
         {| self := set_required (self st1)
                      (required (self st1)
                       ++ [{| Name := name; store_Items := items |}]);
            env := env st1 |})
    | (Err e, t, st1) => (Err e, intro ++ t, st1)
    end.
Proof.
  unfold configure_store, interactive, store_intro.
  unfold bind, get_self, put_self, when, text_Break, text_Output, emit, ret.
  cbn.
  destruct (negb (AcceptDefaults (self st)) && negb (NonInteractive (self st)));
    cbn.
  - destruct (String.eqb (Description settings) ""); cbn;
      destruct (configure_items _ _ _ st) as [[[items|e] t] st1]; cbn;
      try reflexivity; rewrite app_nil_r; reflexivity.
  - destruct (configure_items _ _ _ st) as [[[items|e] t] st1]; cbn;
      try reflexivity; rewrite app_nil_r; reflexivity.
Qed.

Lemma configure_store_spec name settings (st : State E) r tr st' :
  configure_store name settings st = (r, tr, st') →
  match r with
  | Ok _ =>
      ∃ items,
        self st' = set_required (self st)
                     (required (self st)
                      ++ [{| Name := name; store_Items := items |}]) ∧
        item_Name <$> items = (range_Items name (Items settings)).*1 ∧
        Secret <$> items = answers tr ∧
        Forall (λ it, Secret it ≠ "") items ∧ clean tr
  | Err e => self st' = self st ∧ stops_at_verdict tr (Some e)
  end.
Proof.
  rewrite configure_store_unfold. cbn zeta.
  assert (clean (if interactive (self st) then store_intro name settings else []))
    as Hc by (destruct (interactive (self st)); [apply store_intro_clean|constructor]).
  assert (answers (if interactive (self st) then store_intro name settings else [])
          = []) as Ha
    by (destruct (interactive (self st)); [apply store_intro_answers|reflexivity]).
  destruct (configure_items _ _ _ st) as [[[items|e] t] st1] eqn:H1;
    apply configure_items_spec in H1 as [Hs H1]; intros [= <- <- <-].
  - destruct H1 as (new & -> & Hn & Hsec & Hnb & Hc1). simpl.
    exists new. rewrite Hs. split; [reflexivity|]. split; [exact Hn|].
    rewrite answers_app, Ha. split; [exact Hsec|]. split; [exact Hnb|].
    apply Forall_app. split; assumption.
  - split; [exact Hs|]. apply stops_app_clean; assumption.
Qed.

Lemma configure_store_quiet name settings (st : State E) :
  interactive (self st) = false →
  configure_store name settings st =
    match range_Items name (Items settings) with
    | [] =>
        (Ok tt, [],
         {| self := set_required (self st)
                      (required (self st) ++ [{| Name := name; store_Items := [] |}]);
            env := env st |})
    | _ :: _ => (Err blank, [], st)
    end.
Proof.
  intros Hi. rewrite configure_store_unfold. cbn zeta.
  rewrite configure_items_quiet by exact Hi. rewrite Hi.
  destruct (range_Items name (Items settings)); reflexivity.
Qed.

Lemma set_required_same s : set_required s (required s ++ []) = s.
Proof. destruct s. unfold set_required. simpl. rewrite app_nil_r. reflexivity. Qed.

(** The loop over the stores, in either mode. *)
Lemma configure_stores_spec stores : ∀ (st : State E) r tr st',
  configure_stores stores st = (r, tr, st') →
  ∃ new,
    self st' = set_required (self st) (required (self st) ++ new) ∧
    no_blank new ∧
    stops_at_verdict tr (failure r) ∧
    (r = Ok tt →
     Name <$> new = stores.*1 ∧
     item_keys <$> new = keys_in_range <$> stores ∧
     Secret <$> flat_map store_Items new = answers tr).
Proof.
  induction stores as [|[name settings] rest IH]; intros st r tr st'; simpl.
  - intros [= <- <- <-]. exists []. rewrite set_required_same.
    repeat split; constructor.
  - unfold bind.
    destruct (configure_store name settings st) as [[[[]|e] t1] st1] eqn:H1;
      apply configure_store_spec in H1.
    + destruct H1 as (items & Hs1 & Hn & Hsec & Hnb & Hc1).
      destruct (configure_stores rest st1) as [[r2 t2] st2] eqn:H2.
      apply IH in H2 as (new & Hs2 & Hnb2 & Hstop & Hok).
      intros [= <- <- <-].
      exists ({| Name := name; store_Items := items |} :: new).
      split; [rewrite Hs2, Hs1; simpl; rewrite <- app_assoc; reflexivity|].
      split; [constructor; assumption|].
      split; [apply stops_app_clean; assumption|].
      intros Hr. destruct (Hok Hr) as (Hnames & Hkeys & Hsecs).
      rewrite !fmap_cons, Hnames, Hkeys. simpl flat_map.
      rewrite fmap_app, Hsecs, Hsec, answers_app.
      unfold item_keys at 1, keys_in_range at 1. simpl. rewrite Hn.
      repeat split.
    + destruct H1 as [Hs1 Hstop]. intros [= <- <- <-].
      exists []. rewrite Hs1, set_required_same.
      repeat split; [constructor | exact Hstop | discriminate ..].
Qed.

(** The loop over the stores when nobody is asked. *)
Lemma configure_stores_quiet stores : ∀ (st : State E),
  interactive (self st) = false →
  ∃ r new,
    configure_stores stores st =
      (r, [], {| self := set_required (self st) (required (self st) ++ new);
                 env := env st |}) ∧
    Forall (λ x, store_Items x = []) new ∧
    ((r = Ok tt ∧ Forall (λ p, Items p.2 = ∅) stores ∧ Name <$> new = stores.*1)
     ∨ (r = Err blank ∧ Exists (λ p, Items p.2 ≠ ∅) stores)).
Proof.
  induction stores as [|[name settings] rest IH]; intros st Hi; simpl.
  - exists (Ok tt), []. rewrite set_required_same. destruct st.
    split; [reflexivity|]. split; [constructor|]. left. repeat split. constructor.
  - unfold bind. rewrite configure_store_quiet by exact Hi.
    destruct (range_Items name (Items settings)) as [|kv l] eqn:Hr.
    + apply range_Items_nil in Hr.
      destruct (IH {| self := set_required (self st)
                                (required (self st)
                                 ++ [{| Name := name; store_Items := [] |}]);
                      env := env st |} Hi)
        as (r & new & Heq & Hnew & Hcase).
      exists r, ({| Name := name; store_Items := [] |} :: new).
      rewrite Heq. simpl. rewrite <- app_assoc.
      split; [reflexivity|]. split; [constructor; [reflexivity|exact Hnew]|].
      destruct Hcase as [(-> & Hall & Hn)|(-> & Hex)].
      * left. split; [reflexivity|].
        split; [constructor; assumption | simpl; f_equal; exact Hn].
      * right. split; [reflexivity|]. apply Exists_cons_tl. exact Hex.
    + exists (Err blank), []. rewrite set_required_same. destruct st.
      split; [reflexivity|]. split; [constructor|]. right.
      split; [reflexivity|]. apply Exists_cons_hd. simpl.
      intros Hempty. apply (range_Items_nil name) in Hempty. congruence.
Qed.

End ConfigureFacts.

(** ** [Create] against its runs *)

Section CreateFacts.
Context {E : Type} `{!Collaborators E}.

Lemma create_items_spec store items : ∀ (st : State E) r tr st',
  create_items store items st = (r, tr, st') →
  self st' = self st ∧
  match r with
  | Ok _ => tr = entries_created store items
  | Err e =>
      ∃ done it rest e0,
        items = done ++ it :: rest ∧
        e = fmt_Errorf_w entry_context e0 ∧
        tr = entries_created store done ++ entry_events store (Some e0) it
             ++ [Progress_Fail]
  end.
Proof.
  induction items as [|it rest IH]; intros st r tr st'; simpl.
  - intros [= <- <- <-]. split; reflexivity.
  - unfold bind, Step, Fail, emit, call, fail. cbn.
    destruct (CreateSecret _ (env st)) as [[e0|] e1]; cbn.
    + intros [= <- <- <-]. split; [reflexivity|].
      exists [], it, rest, e0. repeat split.
    + destruct (create_items store rest _) as [[r2 t2] st2] eqn:H2.
      apply IH in H2 as [Hs H2]. intros [= <- <- <-].
      split; [exact Hs|].
      destruct r2 as [[]|e].
      * rewrite H2. reflexivity.
      * destruct H2 as (done & it' & rest' & e0 & -> & -> & ->).
        exists (it :: done), it', rest', e0. repeat split.
Qed.

Lemma create_store_spec s x (st : State E) r tr st' :
  create_store s x st = (r, tr, st') →
  self st' = self st ∧ store_run s x r tr.
Proof.
  unfold create_store, bind, Step, Fail, emit, call, fail, ret. cbn.
  destruct (CreateSecretStore _ (env st)) as [[store|e0] e1]; cbn.
  - destruct (create_items store (store_Items x) _) as [[[[]|e] t2] st2] eqn:H2;
      apply create_items_spec in H2 as [Hs2 H2]; cbn.
    + destruct (CreateResource _ (env st2)) as [[e0|] e3]; cbn;
        intros [= <- <- <-]; (split; [exact Hs2|]); subst t2.
      * apply (link_failed s x store e0).
      * apply (linked s x store).
    + intros [= <- <- <-]. split; [exact Hs2|].
      destruct H2 as (done & it & rest & e0 & Hsplit & -> & ->).
      apply (entry_failed s x store done it rest e0 Hsplit).
  - intros [= <- <- <-]. split; [reflexivity|]. apply store_failed.
Qed.

Lemma create_stores_spec s stores : ∀ (st : State E) r tr st',
  create_stores s stores st = (r, tr, st') →
  self st' = self st ∧ stores_run s stores r tr.
Proof.
  induction stores as [|x rest IH]; intros st r tr st'; simpl.
  - intros [= <- <- <-]. split; [reflexivity|constructor].
  - unfold bind.
    destruct (create_store s x st) as [[[[]|e] t1] st1] eqn:H1;
      apply create_store_spec in H1 as [Hs1 H1].
    + destruct (create_stores s rest st1) as [[r2 t2] st2] eqn:H2.
      apply IH in H2 as [Hs2 H2]. intros [= <- <- <-].
      split; [congruence|]. apply run_next; assumption.
    + intros [= <- <- <-]. split; [exact Hs1|]. apply run_abort. exact H1.
Qed.

Lemma Create_attached (st : State E) p :
  Progress (self st) = Some p →
  Create st = create_stores (self st) (required (self st)) st.
Proof.
  intros Hp. unfold Create, bind, get_self. rewrite Hp.
  destruct (create_stores _ _ st) as [[r t] st']. reflexivity.
Qed.

Lemma Create_run (st : State E) r tr st' :
  Create st = (r, tr, st') → Progress (self st) ≠ None →
  self st' = self st ∧ stores_run (self st) (required (self st)) r tr.
Proof.
  intros Hc Hp. destruct (Progress (self st)) as [p|] eqn:Hprog; [|contradiction].
  rewrite (Create_attached st p Hprog) in Hc.
  apply create_stores_spec in Hc. exact Hc.
Qed.

End CreateFacts.

(** ** Remote calls of a trace *)

Lemma app_split {A} (l1 l2 pre post : list A) (y : A) :
  l1 ++ l2 = pre ++ y :: post →
  (∃ mid, l1 = pre ++ y :: mid ∧ post = mid ++ l2)
  ∨ (∃ pre2, pre = l1 ++ pre2 ∧ l2 = pre2 ++ y :: post).
Proof.
  revert pre. induction l1 as [|a l1 IH]; intros pre; simpl.
  - intros ->. right. exists pre. split; reflexivity.
  - destruct pre as [|p pre]; simpl; intros [= -> Heq].
    + left. exists l1. split; [reflexivity | symmetry; exact Heq].
    + destruct (IH pre Heq) as [(mid & -> & ->)|(pre2 & -> & ->)].
      * left. exists mid. split; reflexivity.
      * right. exists pre2. split; reflexivity.
Qed.

Lemma remote_calls_app t1 t2 :
  remote_calls (t1 ++ t2) = remote_calls t1 ++ remote_calls t2.
Proof. apply filter_app. Qed.

Lemma links_app t1 t2 : links (t1 ++ t2) = links t1 + links t2.
Proof. unfold links. rewrite filter_app, length_app. reflexivity. Qed.

Lemma remote_entries_created store items :
  remote_calls (entries_created store items) = entry_call store None <$> items.
Proof.
  induction items as [|it rest IH]; [reflexivity|].
  change (entries_created store (it :: rest))
    with (entry_events store None it ++ entries_created store rest).
  rewrite remote_calls_app, IH. reflexivity.
Qed.

Lemma links_entries store err items : links (entry_call store err <$> items) = 0.
Proof. induction items as [|it rest IH]; [reflexivity|exact IH]. Qed.

Lemma links_block x store err items :
  links (store_call x (Ok store) :: (entry_call store err <$> items)) = 0.
Proof. apply (links_entries store err items). Qed.

(** The remote calls of one turn of the loop. *)
Lemma store_run_calls s x r tr :
  store_run s x r tr →
  (∃ e0, remote_calls tr = [store_call x (Err e0)])
  ∨ (∃ store done it rest e0,
       store_Items x = done ++ it :: rest ∧
       remote_calls tr =
         store_call x (Ok store) :: (entry_call store None <$> done)
         ++ [entry_call store (Some e0) it])
  ∨ (∃ store err,
       (err = None ↔ r = Ok tt) ∧
       remote_calls tr =
         store_call x (Ok store) :: (entry_call store None <$> store_Items x)
         ++ [link_call s store err]).
Proof.
  destruct 1 as [e0|store done it rest e0 Hsplit|store e0|store];
    rewrite ?remote_calls_app, ?remote_entries_created.
  - left. exists e0. reflexivity.
  - right. left. exists store, done, it, rest, e0. split; [exact Hsplit|reflexivity].
  - right. right. exists store, (Some e0). split; [|reflexivity].
    split; discriminate.
  - right. right. exists store, None. split; [|reflexivity].
    split; reflexivity.
Qed.

Lemma store_run_ok_calls s x tr :
  store_run s x (Ok tt) tr → ∃ store, remote_calls tr = store_calls s x store.
Proof.
  inversion 1 as [| | |store]; subst.
  exists store. rewrite !remote_calls_app, remote_entries_created. reflexivity.
Qed.

Lemma links_cons ev tr : links (ev :: tr) = (if is_link ev then 1 else 0) + links tr.
Proof. unfold links. rewrite filter_cons. destruct (is_link ev); reflexivity. Qed.

Lemma no_link_split tr pre y post :
  links tr = 0 → is_link y = true → tr ≠ pre ++ y :: post.
Proof.
  intros H0 Hy ->. rewrite links_app, links_cons, Hy in H0. lia.
Qed.

Lemma split_last_link tr z pre y post :
  links tr = 0 → is_link y = true → tr ++ [z] = pre ++ y :: post →
  pre = tr ∧ y = z ∧ post = [].
Proof.
  intros H0 Hy Heq. destruct (app_split _ _ _ _ _ Heq)
    as [(mid & Htr & _)|(pre2 & -> & Hz)].
  - exfalso. exact (no_link_split _ _ _ _ H0 Hy Htr).
  - destruct pre2 as [|p pre2].
    + injection Hz as <- <-. rewrite app_nil_r. repeat split.
    + injection Hz as _ Hz. destruct pre2; discriminate.
Qed.

(** Where a linkage call sits within the calls of its turn. *)
Lemma block_link s x r tr pre i err post :
  store_run s x r tr →
  remote_calls tr = pre ++ API_CreateResource i err :: post →
  post = [] ∧
  ∃ store, i = link_input s store ∧
           pre = store_call x (Ok store) :: (entry_call store None <$> store_Items x).
Proof.
  intros Hrun Heq.
  destruct (store_run_calls _ _ _ _ Hrun)
    as [(e0 & Hc)|[(store & done & it & rest & e0 & _ & Hc)|(store & err' & _ & Hc)]];
    rewrite Hc in Heq.
  - exfalso. revert Heq. apply no_link_split; reflexivity.
  - exfalso. revert Heq. apply no_link_split; [|reflexivity].
    rewrite app_comm_cons, links_app, links_block. reflexivity.
  - rewrite app_comm_cons in Heq.
    apply split_last_link in Heq as (-> & Hy & ->);
      [|apply links_block|reflexivity].
    split; [reflexivity|]. exists store. injection Hy as -> _.
    split; reflexivity.
Qed.

Lemma split_entry x store items z pre i err post :
  store_call x (Ok store) :: (entry_call store None <$> items) ++ [z]
    = pre ++ API_CreateSecret i err :: post →
  (∃ done it rest,
     items = done ++ it :: rest ∧ i = entry_input store it ∧
     pre = store_call x (Ok store) :: (entry_call store None <$> done))
  ∨ (z = API_CreateSecret i err ∧ post = [] ∧
     pre = store_call x (Ok store) :: (entry_call store None <$> items)).
Proof.
  destruct pre as [|p pre]; simpl; [discriminate|].
  intros [= <- Heq].
  destruct (app_split _ _ _ _ _ Heq) as [(mid & Hin & _)|(pre2 & -> & Hz)].
  - left. apply fmap_app_inv in Hin as (done & tl & -> & Htl & ->).
    symmetry in Htl. apply fmap_cons_inv in Htl as (it & rest & Hit & _ & ->).
    injection Hit as -> _. exists done, it, rest. repeat split.
  - right. destruct pre2 as [|q pre2].
    + injection Hz as -> <-. rewrite app_nil_r. repeat split.
    + injection Hz as _ Hz. destruct pre2; discriminate.
Qed.

(** Where an entry call sits within the calls of its turn. *)
Lemma block_entry s x r tr pre i err post :
  store_run s x r tr →
  remote_calls tr = pre ++ API_CreateSecret i err :: post →
  ∃ store done it rest,
    store_Items x = done ++ it :: rest ∧ i = entry_input store it ∧
    pre = store_call x (Ok store) :: (entry_call store None <$> done).
Proof.
  intros Hrun Heq.
  destruct (store_run_calls _ _ _ _ Hrun)
    as [(e0 & Hc)|[(store & done & it & rest & e0 & Hsplit & Hc)|(store & err' & _ & Hc)]];
    rewrite Hc in Heq.
  - destruct pre as [|p [|q pre]]; discriminate.
  - apply split_entry in Heq
      as [(done1 & it1 & rest1 & -> & -> & ->)|(Hz & -> & ->)].
    + exists store, done1, it1, (rest1 ++ it :: rest).
      rewrite Hsplit, <- app_assoc. repeat split.
    + injection Hz as <- _. exists store, done, it, rest. repeat split. exact Hsplit.
  - apply split_entry in Heq
      as [(done1 & it1 & rest1 & Hitems & -> & ->)|(Hz & _)]; [|discriminate].
    exists store, done1, it1, rest1. repeat split. exact Hitems.
Qed.

Lemma store_run_ok_links s x tr :
  store_run s x (Ok tt) tr → links (remote_calls tr) = 1.
Proof.
  intros Hrun. destruct (store_run_ok_calls _ _ _ Hrun) as [store ->].
  unfold store_calls. rewrite app_comm_cons, links_app, links_block. reflexivity.
Qed.

(** Every linkage call follows the created resource and all of its
    entries. *)
Lemma stores_run_link s stores r tr :
  stores_run s stores r tr →
  ∀ pre i err post,
    remote_calls tr = pre ++ API_CreateResource i err :: post →
    ∃ x store before,
      stores !! links pre = Some x ∧ i = link_input s store ∧
      pre = before ++ store_call x (Ok store)
                      :: (entry_call store None <$> store_Items x).
Proof.
  induction 1 as [|x rest r t1 t2 H1 _ IH|x rest e t1 H1];
    intros pre i err post Heq.
  - destruct pre; discriminate.
  - rewrite remote_calls_app in Heq.
    destruct (app_split _ _ _ _ _ Heq) as [(mid & Hin & _)|(pre2 & -> & Hin)].
    + destruct (block_link _ _ _ _ _ _ _ _ H1 Hin) as (_ & store & -> & ->).
      exists x, store, []. rewrite links_block. repeat split.
    + destruct (IH _ _ _ _ Hin) as (x' & store & before & Hx & -> & ->).
      exists x', store, (remote_calls t1 ++ before).
      rewrite links_app, (store_run_ok_links _ _ _ H1). simpl.
      rewrite <- app_assoc. repeat split. exact Hx.
  - destruct (block_link _ _ _ _ _ _ _ _ H1 Heq) as (_ & store & -> & ->).
    exists x, store, []. rewrite links_block. repeat split.
Qed.

(** Every entry call follows the created resource and the entries before
    it. *)
Lemma stores_run_entry s stores r tr :
  stores_run s stores r tr →
  ∀ pre i err post,
    remote_calls tr = pre ++ API_CreateSecret i err :: post →
    ∃ x store before done it rest,
      stores !! links pre = Some x ∧
      store_Items x = done ++ it :: rest ∧ i = entry_input store it ∧
      pre = before ++ store_call x (Ok store) :: (entry_call store None <$> done).
Proof.
  induction 1 as [|x rest r t1 t2 H1 _ IH|x rest e t1 H1];
    intros pre i err post Heq.
  - destruct pre; discriminate.
  - rewrite remote_calls_app in Heq.
    destruct (app_split _ _ _ _ _ Heq) as [(mid & Hin & _)|(pre2 & -> & Hin)].
    + destruct (block_entry _ _ _ _ _ _ _ _ H1 Hin)
        as (store & done & it & rest' & Hsplit & -> & ->).
      exists x, store, [], done, it, rest'. rewrite links_block. repeat split.
      exact Hsplit.
    + destruct (IH _ _ _ _ Hin)
        as (x' & store & before & done & it & rest' & Hx & Hsplit & -> & ->).
      exists x', store, (remote_calls t1 ++ before), done, it, rest'.
      rewrite links_app, (store_run_ok_links _ _ _ H1). simpl.
      rewrite <- app_assoc. repeat split; assumption.
  - destruct (block_entry _ _ _ _ _ _ _ _ H1 Heq)
      as (store & done & it & rest' & Hsplit & -> & ->).
    exists x, store, [], done, it, rest'. rewrite links_block. repeat split.
    exact Hsplit.
Qed.

(** ** Traces of [Create] *)

Lemma stops_app_sound s t1 t2 err :
  sound t1 → stops_at_failure s t2 err → stops_at_failure s (t1 ++ t2) err.
Proof.
  induction 1 as [|ev tr Hev _ IH]; simpl; [auto|].
  rewrite Hev. exact IH.
Qed.

Lemma sound_stops s tr err : sound tr → stops_at_failure s tr err.
Proof.
  intros Hs. rewrite <- (app_nil_r tr). apply stops_app_sound; [exact Hs|exact I].
Qed.

Lemma stops_failure_split s tr err pre ev post e0 :
  stops_at_failure s tr err → tr = pre ++ ev :: post → call_failed ev = Some e0 →
  post = [Progress_Fail] ∧ err = Some (fmt_Errorf_w (failure_context s ev) e0).
Proof.
  intros Hstop -> Hev. induction pre as [|x pre IH]; simpl in Hstop.
  - rewrite Hev in Hstop. exact Hstop.
  - destruct (call_failed x).
    + destruct Hstop as [Hfail _]. destruct pre as [|y [|z pre]]; try discriminate.
      injection Hfail as ->. discriminate.
    + auto.
Qed.

Lemma sound_entries_created store items : sound (entries_created store items).
Proof.
  induction items as [|it rest IH]; [constructor|].
  repeat constructor. exact IH.
Qed.

Lemma store_run_stops s x r tr :
  store_run s x r tr →
  stops_at_failure s tr (failure r) ∧ (r = Ok tt → sound tr).
Proof.
  destruct 1 as [e0|store done it rest e0 Hsplit|store e0|store].
  - split; [|discriminate]. simpl. auto.
  - split; [|discriminate].
    apply (stops_app_sound s (store_events x (Ok store))); [repeat constructor|].
    apply stops_app_sound; [apply sound_entries_created|]. simpl. auto.
  - split; [|discriminate].
    apply (stops_app_sound s (store_events x (Ok store))); [repeat constructor|].
    apply stops_app_sound; [apply sound_entries_created|]. simpl. auto.
  - assert (sound (store_events x (Ok store) ++ entries_created store (store_Items x)
                   ++ link_events s x store None)) as Hs.
    { apply Forall_app. split; [repeat constructor|].
      apply Forall_app. split; [apply sound_entries_created|repeat constructor]. }
    split; [apply sound_stops; exact Hs | intros _; exact Hs].
Qed.

Lemma stores_run_stops s stores r tr :
  stores_run s stores r tr → stops_at_failure s tr (failure r).
Proof.
  induction 1 as [|x rest r t1 t2 H1 _ IH|x rest e t1 H1].
  - exact I.
  - apply stops_app_sound; [|exact IH].
    apply (store_run_stops _ _ _ _ H1). reflexivity.
  - apply (store_run_stops _ _ _ _ H1).
Qed.

(** ** The calls of a run that succeeds *)

Lemma stores_run_ok_calls s stores r tr :
  stores_run s stores r tr → r = Ok tt →
  ∃ ids,
    length ids = length stores ∧
    remote_calls tr = flat_map (λ p, store_calls s p.1 p.2) (zip stores ids).
Proof.
  induction 1 as [|x rest r t1 t2 H1 _ IH|x rest e t1 H1]; intros Hr.
  - exists []. split; reflexivity.
  - destruct (IH Hr) as (ids & Hlen & Hcalls).
    destruct (store_run_ok_calls _ _ _ H1) as [store Hc1].
    exists (store :: ids). split; [simpl; rewrite Hlen; reflexivity|].
    rewrite remote_calls_app, Hc1, Hcalls. reflexivity.
  - discriminate.
Qed.

(** ** The iteration order against the mapping *)

Section Ranges.
Context {E : Type} `{!Collaborators E}.

Lemma in_range_Setup (m : gmap string SetupSecretStore) p :
  p ∈ range_Setup m ↔ m !! p.1 = Some p.2.
Proof. rewrite (range_Setup_perm m). apply elem_of_map_to_list'. Qed.

Lemma all_empty_range (m : gmap string SetupSecretStore) :
  Forall (λ p, Items p.2 = ∅) (range_Setup m)
  ↔ map_Forall (λ _ settings, Items settings = ∅) m.
Proof.
  rewrite Forall_forall. split.
  - intros Hall name settings Hlook.
    apply (Hall (name, settings)). apply in_range_Setup. exact Hlook.
  - intros Hall [name settings] Hin. apply in_range_Setup in Hin.
    exact (Hall name settings Hin).
Qed.

Lemma some_entry_range (m : gmap string SetupSecretStore) :
  Exists (λ p, Items p.2 ≠ ∅) (range_Setup m)
  ↔ ∃ name settings, m !! name = Some settings ∧ Items settings ≠ ∅.
Proof.
  rewrite Exists_exists. split.
  - intros ([name settings] & Hin & Hne). apply in_range_Setup in Hin.
    exists name, settings. split; assumption.
  - intros (name & settings & Hlook & Hne). exists (name, settings).
    split; [apply in_range_Setup; exact Hlook | exact Hne].
Qed.

Lemma quiet_mode s :
  AcceptDefaults s = true ∨ NonInteractive s = true → interactive s = false.
Proof.
  unfold interactive. intros [-> | ->]; [reflexivity|].
  destruct (AcceptDefaults s); reflexivity.
Qed.

(** [Configure] when nobody is asked. *)
Lemma Configure_silent (st : State E) :
  interactive (self st) = false →
  ∃ r new,
    Configure st =
      (r, [], {| self := set_required (self st) (required (self st) ++ new);
                 env := env st |}) ∧
    Forall (λ x, store_Items x = []) new ∧
    ((r = Ok tt ∧
      map_Forall (λ _ settings, Items settings = ∅) (Setup (self st)) ∧
      Name <$> new = (range_Setup (Setup (self st))).*1)
     ∨ (r = Err blank ∧
        ∃ name settings,
          Setup (self st) !! name = Some settings ∧ Items settings ≠ ∅)).
Proof.
  intros Hi.
  destruct (configure_stores_quiet (range_Setup (Setup (self st))) st Hi)
    as (r & new & Heq & Hnew & Hcase).
  exists r, new. split.
  - unfold Configure, bind, get_self. rewrite Heq. reflexivity.
  - split; [exact Hnew|].
    destruct Hcase as [(Hr & Hall & Hn)|(Hr & Hex)].
    + left. split; [exact Hr|]. split; [apply all_empty_range; exact Hall|exact Hn].
    + right. split; [exact Hr|]. apply some_entry_range. exact Hex.
Qed.

Lemma Configure_run (st : State E) r tr st' :
  Configure st = (r, tr, st') →
  ∃ new,
    self st' = set_required (self st) (required (self st) ++ new) ∧
    no_blank new ∧
    stops_at_verdict tr (failure r) ∧
    (r = Ok tt →
     Name <$> new = (range_Setup (Setup (self st))).*1 ∧
     item_keys <$> new = keys_in_range <$> range_Setup (Setup (self st)) ∧
     Secret <$> flat_map store_Items new = answers tr).
Proof.
  unfold Configure, bind, get_self.
  destruct (configure_stores _ st) as [[r0 t0] st0] eqn:Hrun.
  intros [= <- <- <-]. simpl. apply configure_stores_spec. exact Hrun.
Qed.

End Ranges.

(** ** Stores without entries *)

Section EmptyStores.
Context {E : Type} `{!Collaborators E}.

Lemma Create_unattached (st : State E) :
  Progress (self st) = None →
  Create st =
    (Err (RemediationError
            (errors_New "internal logic error: no text.Progress configured for setup.SecretStores")
            fsterrors_BugRemediation),
     [], st).
Proof.
  intros Hp. unfold Create, bind, get_self, fail. rewrite Hp. reflexivity.
Qed.

Lemma prompts_app t1 t2 : prompts (t1 ++ t2) = prompts t1 ++ prompts t2.
Proof. apply filter_app. Qed.

Lemma store_intro_prompts name settings : prompts (store_intro name settings) = [].
Proof.
  unfold store_intro. destruct (String.eqb (Description settings) ""); reflexivity.
Qed.

Lemma configure_store_empty name settings (st : State E) :
  Items settings = ∅ →
  ∃ tr,
    configure_store name settings st =
      (Ok tt, tr,
       {| self := set_required (self st)
                    (required (self st) ++ [{| Name := name; store_Items := [] |}]);
          env := env st |}) ∧
    prompts tr = [].
Proof.
  intros Hempty. rewrite configure_store_unfold. cbn zeta.
  rewrite (proj2 (range_Items_nil name (Items settings)) Hempty). simpl.
  eexists. split; [reflexivity|].
  rewrite app_nil_r. destruct (interactive (self st));
    [apply store_intro_prompts | reflexivity].
Qed.

Lemma configure_stores_empty stores :
  Forall (λ p, Items p.2 = ∅) stores →
  ∀ st : State E,
    ∃ tr new,
      configure_stores stores st =
        (Ok tt, tr,
         {| self := set_required (self st) (required (self st) ++ new);
            env := env st |}) ∧
      prompts tr = [] ∧
      Name <$> new = stores.*1 ∧
      Forall (λ x, store_Items x = []) new.
Proof.
  induction 1 as [|[name settings] rest Hhd _ IH]; intros st; simpl.
  - exists [], []. rewrite set_required_same. destruct st.
    repeat split; constructor.
  - unfold bind.
    destruct (configure_store_empty name settings st Hhd) as (t1 & -> & Hp1).
    destruct (IH {| self := set_required (self st)
                              (required (self st)
                               ++ [{| Name := name; store_Items := [] |}]);
                    env := env st |})
      as (t2 & new & -> & Hp2 & Hn & Hnew).
    exists (t1 ++ t2), ({| Name := name; store_Items := [] |} :: new).
    simpl. rewrite <- app_assoc. split; [reflexivity|].
    rewrite prompts_app, Hp1, Hp2. split; [reflexivity|].
    split; [f_equal; exact Hn|]. constructor; [reflexivity|exact Hnew].
Qed.

(** The first turn of [Create] on a store without entries whose creation
    succeeds. *)
Lemma first_store_calls s x store e1 (st : State E) r tr st' :
  store_Items x = [] →
  CreateSecretStore {| css_Name := Name x |} (env st) = (Ok store, e1) →
  create_store s x st = (r, tr, st') →
  ∃ err,
    remote_calls tr = [store_call x (Ok store); link_call s store err] ∧
    (r = Ok tt ↔ err = None) ∧ self st' = self st.
Proof.
  intros Hitems Hcss.
  unfold create_store, bind, Step, Fail, emit, call, fail, ret. cbn.
  rewrite Hcss, Hitems. cbn.
  destruct (CreateResource _ e1) as [[e0|] e3]; cbn; intros [= <- <- <-].
  - exists (Some e0). repeat split; discriminate.
  - exists None. repeat split.
Qed.

End EmptyStores.

(** ** A store without entries at any place *)

Lemma linked_app t1 t2 : linked_count (t1 ++ t2) = linked_count t1 + linked_count t2.
Proof. unfold linked_count. rewrite filter_app, length_app. reflexivity. Qed.

Lemma linked_entries_created store items : linked_count (entries_created store items) = 0.
Proof.
  induction items as [|it rest IH]; [reflexivity|].
  change (entries_created store (it :: rest))
    with (entry_events store None it ++ entries_created store rest).
  rewrite linked_app, IH. reflexivity.
Qed.

(** A turn that succeeds links one store, a turn that fails links none. *)
Lemma store_run_linked s x r tr :
  store_run s x r tr →
  linked_count tr = match r with Ok _ => 1 | Err _ => 0 end.
Proof.
  destruct 1 as [e0|store done it rest e0 Hsplit|store e0|store];
    rewrite ?linked_app, ?linked_entries_created; reflexivity.
Qed.

(** A turn starts with the creation of its store; for a store without
    entries the linkage is all that can follow. *)
Lemma store_run_starts s x r tr :
  store_run s x r tr →
  ∃ sr rest,
    remote_calls tr = store_call x sr :: rest ∧
    (store_Items x = [] →
     match sr with
     | Ok store => ∃ err, rest = [link_call s store err]
     | Err _ => rest = []
     end).
Proof.
  intros Hrun.
  destruct (store_run_calls _ _ _ _ Hrun)
    as [(e0 & Hc)|[(store & done & it & rest & e0 & Hsplit & Hc)
                  |(store & err & _ & Hc)]];
    rewrite Hc.
  - exists (Err e0), []. split; [reflexivity|]. intros _. reflexivity.
  - eexists (Ok store), _. split; [reflexivity|]. intros Hnil.
    rewrite Hnil in Hsplit. destruct done; discriminate.
  - eexists (Ok store), _. split; [reflexivity|]. intros Hnil.
    rewrite Hnil. exists err. reflexivity.
Qed.

Lemma store_run_ok_ends s x tr :
  store_run s x (Ok tt) tr →
  ∃ pre' i', remote_calls tr = pre' ++ [API_CreateResource i' None].
Proof.
  intros Hrun. destruct (store_run_ok_calls _ _ _ Hrun) as [store ->].
  unfold store_calls. rewrite app_comm_cons. eexists _, _. reflexivity.
Qed.

(** Once the stores before it are linked, the creation of a required store
    is requested, right after the linkage of the store before it; when the
    store has no entry, its linkage is the next call. *)
Lemma stores_run_reaches s stores r tr :
  stores_run s stores r tr →
  ∀ (k : nat) x,
    stores !! k = Some x → store_Items x = [] → (k ≤ linked_count tr)%nat →
    ∃ pre sr post,
      remote_calls tr = pre ++ store_call x sr :: post ∧
      links pre = k ∧
      (pre = [] ∨ ∃ pre' i', pre = pre' ++ [API_CreateResource i' None]) ∧
      match sr with
      | Ok store => ∃ err post', post = link_call s store err :: post'
      | Err _ => post = []
      end.
Proof.
  induction 1 as [|x0 rest r t1 t2 H1 _ IH|x0 rest e t1 H1];
    intros k x Hk Hitems Hle.
  - discriminate.
  - destruct k as [|k]; simpl in Hk.
    + injection Hk as ->.
      destruct (store_run_ok_calls _ _ _ H1) as [store Hc].
      exists [], (Ok store), ([link_call s store None] ++ remote_calls t2).
      rewrite remote_calls_app, Hc. unfold store_calls. rewrite Hitems.
      split; [reflexivity|]. split; [reflexivity|]. split; [left; reflexivity|].
      eexists _, _. reflexivity.
    + rewrite linked_app, (store_run_linked _ _ _ _ H1) in Hle.
      destruct (IH k x Hk Hitems ltac:(lia))
        as (pre & sr & post & Hc & Hlinks & Hend & Hshape).
      exists (remote_calls t1 ++ pre), sr, post.
      rewrite remote_calls_app, Hc, <- app_assoc.
      split; [reflexivity|].
      split; [rewrite links_app, (store_run_ok_links _ _ _ H1), Hlinks; reflexivity|].
      split; [|exact Hshape]. right.
      destruct Hend as [-> | (pre' & i' & ->)].
      * rewrite app_nil_r. exact (store_run_ok_ends _ _ _ H1).
      * exists (remote_calls t1 ++ pre'), i'. rewrite app_assoc. reflexivity.
  - destruct k as [|k]; simpl in Hk.
    + injection Hk as ->.
      destruct (store_run_starts _ _ _ _ H1) as (sr & rest1 & Hc & Hshape).
      exists [], sr, rest1. split; [exact Hc|]. split; [reflexivity|].
      split; [left; reflexivity|].
      specialize (Hshape Hitems). destruct sr as [store|e0]; [|exact Hshape].
      destruct Hshape as [err ->]. exists err, []. reflexivity.
    + rewrite (store_run_linked _ _ _ _ H1) in Hle. lia.
Qed.

(** * The claims *)

Section Claims.
Context {E : Type} `{!Collaborators E}.

(** C8. [Predefined] answers whether the setup mapping is non-empty: false
    for the empty mapping, true for any other.  The answer does not change
    with the mode flags, no event is emitted and the state is the one it
    started from, however often it is called. *)
Theorem Predefined_pure (st : State E) (accept nonint : bool) (n : nat) :
  Predefined st = (Ok (bool_decide (Setup (self st) ≠ ∅)), [], st) ∧
  (Predefined {| self := set_modes (self st) accept nonint; env := env st |}).1.1
    = (Predefined st).1.1 ∧
  Nat.iter n (λ st0, (Predefined st0).2) st = st.
Proof.
  assert (∀ st0 : State E,
            Predefined st0 = (Ok (bool_decide (Setup (self st0) ≠ ∅)), [], st0))
    as Hpre.
  { intros st0. unfold Predefined, bind, get_self, ret. simpl.
    do 2 f_equal. f_equal. apply bool_decide_ext.
    rewrite <- (map_size_non_empty_iff (Setup (self st0))). lia. }
  split; [apply Hpre|]. split; [rewrite !Hpre; reflexivity|].
  induction n as [|n IH]; [reflexivity|].
  rewrite Nat.iter_succ, IH, Hpre. reflexivity.
Qed.

(** C4. [Create] on a provisioner with no progress sink returns the
    internal logic error, carrying the bug remediation; it emits no event,
    so issues no remote call, and leaves the state as it was. *)
Theorem Create_without_progress (st : State E) :
  Progress (self st) = None →
  Create st =
    (Err (RemediationError
            (errors_New "internal logic error: no text.Progress configured for setup.SecretStores")
            fsterrors_BugRemediation),
     [], st).
Proof.
  intros Hp. unfold Create, bind, get_self, fail. rewrite Hp. reflexivity.
Qed.

(** C1, as the code has it.  In accept-defaults or non-interactive mode
    [Configure] asks nothing: it emits no event and leaves the environment
    untouched.  No configured value is consulted, every entry resolves to
    the empty string: the run fails with the blank-value error as soon as a
    store that declares an entry is visited, and succeeds, adding stores
    without entries, exactly when no store declares one. *)
Theorem Configure_quiet (st : State E) :
  AcceptDefaults (self st) = true ∨ NonInteractive (self st) = true →
  ∃ r new,
    Configure st =
      (r, [], {| self := set_required (self st) (required (self st) ++ new);
                 env := env st |}) ∧
    Forall (λ x, store_Items x = []) new ∧
    ((r = Ok tt ∧
      map_Forall (λ _ settings, Items settings = ∅) (Setup (self st)) ∧
      Name <$> new = (range_Setup (Setup (self st))).*1)
     ∨ (r = Err blank ∧
        ∃ name settings,
          Setup (self st) !! name = Some settings ∧ Items settings ≠ ∅)).
Proof.
  intros Hmode. apply Configure_silent. apply quiet_mode. exact Hmode.
Qed.

(** C5. In accept-defaults or non-interactive mode, a declared entry with
    no configured value makes [Configure] fail with "value cannot be
    blank": nothing is asked, and no entry of any store has been accepted.
    In either mode, whatever the outcome, the stores [Configure] has added
    hold no blank secret. *)
Theorem Configure_rejects_blank (st : State E) :
  (AcceptDefaults (self st) = true ∨ NonInteractive (self st) = true →
   ∀ name settings key item,
     Setup (self st) !! name = Some settings →
     Items settings !! key = Some item →
     item_Value item = None →
     ∃ new,
       Configure st =
         (Err (errors_New "value cannot be blank"), [],
          {| self := set_required (self st) (required (self st) ++ new);
             env := env st |}) ∧
       Forall (λ x, store_Items x = []) new) ∧
  (∀ r tr st',
     Configure st = (r, tr, st') →
     ∃ new,
       self st' = set_required (self st) (required (self st) ++ new) ∧
       Forall (λ x, Forall (λ it, Secret it ≠ "") (store_Items x)) new).
Proof.
  split.
  - intros Hmode name settings key item Hstore Hitem _.
    destruct (Configure_silent st (quiet_mode _ Hmode))
      as (r & new & Heq & Hnew & [(_ & Hall & _)|(-> & _)]).
    + exfalso. specialize (Hall name settings Hstore). simpl in Hall.
      rewrite Hall, lookup_empty in Hitem. discriminate.
    + exists new. split; [exact Heq | exact Hnew].
  - intros r tr st' Hrun.
    destruct (Configure_run st r tr st' Hrun) as (new & Hs & Hnb & _).
    exists new. split; [exact Hs | exact Hnb].
Qed.

(** C6. An empty answer to a prompt ends [Configure] there with the
    blank-value error.  A non-empty answer is what the entry being built
    gets as its secret, unchanged; and when [Configure] succeeds the
    secrets of the stores it added are the answers given, one for one and
    in order, under the names and keys the iteration visited. *)
Theorem Configure_keeps_answers (st : State E) r tr st' :
  Configure st = (r, tr, st') →
  (∀ pre prompt post,
     tr = pre ++ Stdin_InputSecure prompt (Ok "") :: post →
     post = [] ∧ r = Err (errors_New "value cannot be blank")) ∧
  (∀ (st0 : State E) acc key item v e',
     interactive (self st0) = true →
     text_InputSecure (text_BoldYellow "Value: ") (env st0) = (Ok v, e') →
     v ≠ "" →
     (configure_item (self st0) acc key item st0).1.1
       = Ok (acc ++ [{| item_Name := key; Secret := v |}])) ∧
  (r = Ok tt →
   ∃ new,
     self st' = set_required (self st) (required (self st) ++ new) ∧
     Name <$> new = (range_Setup (Setup (self st))).*1 ∧
     item_keys <$> new = keys_in_range <$> range_Setup (Setup (self st)) ∧
     Secret <$> flat_map store_Items new = answers tr).
Proof.
  intros Hrun.
  destruct (Configure_run st r tr st' Hrun) as (new & Hs & _ & Hstop & Hok).
  split; [|split].
  - intros pre prompt post Htr.
    destruct (stops_split tr (failure r) pre _ post blank Hstop Htr eq_refl)
      as [Hpost Hr].
    split; [exact Hpost|]. destruct r; [discriminate|].
    injection Hr as ->. reflexivity.
  - intros st0 acc key item v e' Hi Hread Hv.
    rewrite configure_item_prompted by exact Hi. cbn zeta. rewrite Hread.
    simpl. destruct (String.eqb_spec v ""); [contradiction|reflexivity].
  - intros Hr. exists new. split; [exact Hs|]. apply Hok. exact Hr.
Qed.

(** C9. A prompt whose read fails ends [Configure] there: the error
    returned is the read's error behind "error reading prompt input: ",
    which is not the blank-value error. *)
Theorem Configure_prompt_failure (st : State E) r tr st' pre prompt e post :
  Configure st = (r, tr, st') →
  tr = pre ++ Stdin_InputSecure prompt (Err e) :: post →
  post = [] ∧
  r = Err (fmt_Errorf_w "error reading prompt input: " e) ∧
  r ≠ Err (errors_New "value cannot be blank") ∧
  ∀ e1, r = Err e1 →
        Error e1 = "error reading prompt input: " +:+ Error e ∧ Unwrap e1 = Some e.
Proof.
  intros Hrun Htr.
  destruct (Configure_run st r tr st' Hrun) as (new & _ & _ & Hstop & _).
  destruct (stops_split tr (failure r) pre _ post _ Hstop Htr eq_refl)
    as [Hpost Hr].
  destruct r as [|e0]; [discriminate|]. injection Hr as ->.
  split; [exact Hpost|]. split; [reflexivity|]. split; [discriminate|].
  intros e1 [= <-]. split; reflexivity.
Qed.

(** C2. Among the remote calls of [Create], a linkage call comes right
    after the successful creation of its resource followed by the
    successful creation of every entry of that resource, in order; the
    k-th linkage call is the one of the k-th required resource.  An entry
    call comes after the successful creation of its resource and of the
    entries before it. *)
Theorem Create_call_order (st : State E) r tr st' :
  Create st = (r, tr, st') →
  (∀ pre i err post,
     remote_calls tr = pre ++ API_CreateResource i err :: post →
     ∃ x store before,
       required (self st) !! links pre = Some x ∧
       i = link_input (self st) store ∧
       pre = before ++ store_call x (Ok store)
                       :: (entry_call store None <$> store_Items x)) ∧
  (∀ pre i err post,
     remote_calls tr = pre ++ API_CreateSecret i err :: post →
     ∃ x store before done it rest,
       required (self st) !! links pre = Some x ∧
       store_Items x = done ++ it :: rest ∧
       i = entry_input store it ∧
       pre = before ++ store_call x (Ok store)
                       :: (entry_call store None <$> done)).
Proof.
  intros Hrun. destruct (Progress (self st)) as [p|] eqn:Hp.
  - apply Create_run in Hrun as [_ Hruns]; [|rewrite Hp; discriminate].
    split.
    + apply (stores_run_link _ _ _ _ Hruns).
    + apply (stores_run_entry _ _ _ _ Hruns).
  - rewrite (Create_unattached st Hp) in Hrun.
    injection Hrun as <- <- <-.
    split; intros pre i err post Heq; destruct pre; discriminate.
Qed.

(** C3. A remote call of [Create] that returns an error is followed by
    [Progress.Fail()] and by nothing else: no further remote call, of
    creation or of deletion, is issued.  [Create] returns the call's error
    behind the context of the step that failed. *)
Theorem Create_stops_at_failure (st : State E) r tr st' pre ev post e0 :
  Create st = (r, tr, st') →
  tr = pre ++ ev :: post →
  call_failed ev = Some e0 →
  post = [Progress_Fail] ∧
  remote_calls post = [] ∧
  r = Err (fmt_Errorf_w (failure_context (self st) ev) e0).
Proof.
  intros Hrun Htr Hev. destruct (Progress (self st)) as [p|] eqn:Hp.
  - apply Create_run in Hrun as [_ Hruns]; [|rewrite Hp; discriminate].
    apply stores_run_stops in Hruns.
    destruct (stops_failure_split _ _ _ _ _ _ _ Hruns Htr Hev) as [-> Hr].
    split; [reflexivity|]. split; [reflexivity|].
    destruct r; [discriminate|]. injection Hr as ->. reflexivity.
  - rewrite (Create_unattached st Hp) in Hrun.
    injection Hrun as <- <- <-. destruct pre; discriminate.
Qed.

(** C7, as the code has it.  [Configure] adds the stores in the order in
    which the iteration over the setup mapping yields them, and the
    entries of a store in the order in which the iteration over its items
    yields them, with the answers given in that order.  [Create] goes
    through the required stores in list order, and through the entries of
    each in list order: for each store its creation, its entries, its
    linkage. *)
Theorem provisioning_follows_iteration (st : State E) tr1 st1 tr2 st2 :
  Configure st = (Ok tt, tr1, st1) →
  Create st1 = (Ok tt, tr2, st2) →
  ∃ new ids,
    required (self st1) = required (self st) ++ new ∧
    Name <$> new = (range_Setup (Setup (self st))).*1 ∧
    item_keys <$> new = keys_in_range <$> range_Setup (Setup (self st)) ∧
    Secret <$> flat_map store_Items new = answers tr1 ∧
    length ids = length (required (self st1)) ∧
    remote_calls tr2 =
      flat_map (λ p, store_calls (self st1) p.1 p.2)
               (zip (required (self st1)) ids).
Proof.
  intros Hconf Hcreate.
  destruct (Configure_run st _ _ _ Hconf) as (new & Hs & _ & _ & Hok).
  destruct (Hok eq_refl) as (Hnames & Hkeys & Hsecrets).
  destruct (Progress (self st1)) as [p|] eqn:Hp.
  - apply Create_run in Hcreate as [_ Hruns]; [|rewrite Hp; discriminate].
    destruct (stores_run_ok_calls _ _ _ _ Hruns eq_refl) as (ids & Hlen & Hcalls).
    exists new, ids. rewrite Hs at 1. simpl.
    repeat split; assumption.
  - rewrite (Create_unattached st1 Hp) in Hcreate. discriminate.
Qed.

(** C10. A store that declares no entry is configured without a prompt,
    in every mode, and is added with no entry; so is every store when none
    declares an entry.  For a required store with no entry whose creation
    succeeds, [Create] issues the creation and next the linkage, with no
    entry call between; when it is the only required store these are all
    the remote calls.  This holds at every place of the required list: once
    the stores before it are linked, the creation of a store with no entry
    is requested, right after the linkage of the store before it (or first
    of all), and when it succeeds the very next call is the store's linkage;
    when it fails no call follows. *)
Theorem empty_store_two_calls (st : State E) :
  (∀ name settings,
     Items settings = ∅ →
     ∃ tr,
       configure_store name settings st =
         (Ok tt, tr,
          {| self := set_required (self st)
                       (required (self st)
                        ++ [{| Name := name; store_Items := [] |}]);
             env := env st |}) ∧
       prompts tr = []) ∧
  (map_Forall (λ _ settings, Items settings = ∅) (Setup (self st)) →
   ∃ tr new,
     Configure st =
       (Ok tt, tr,
        {| self := set_required (self st) (required (self st) ++ new);
           env := env st |}) ∧
     prompts tr = [] ∧
     Name <$> new = (range_Setup (Setup (self st))).*1 ∧
     Forall (λ x, store_Items x = []) new) ∧
  (∀ x rest store e1 r tr st',
     Progress (self st) ≠ None →
     required (self st) = x :: rest →
     store_Items x = [] →
     CreateSecretStore {| css_Name := Name x |} (env st) = (Ok store, e1) →
     Create st = (r, tr, st') →
     ∃ err tail,
       remote_calls tr =
         store_call x (Ok store) :: link_call (self st) store err :: tail ∧
       (rest = [] → tail = [])) ∧
  (∀ (k : nat) x r tr st',
     Progress (self st) ≠ None →
     required (self st) !! k = Some x →
     store_Items x = [] →
     Create st = (r, tr, st') →
     (k ≤ linked_count tr)%nat →
     ∃ pre sr post,
       remote_calls tr = pre ++ store_call x sr :: post ∧
       links pre = k ∧
       (pre = [] ∨ ∃ pre' i', pre = pre' ++ [API_CreateResource i' None]) ∧
       match sr with
       | Ok store => ∃ err post', post = link_call (self st) store err :: post'
       | Err _ => post = []
       end).
Proof.
  split; [|split; [|split]]; cycle 3.
  { intros k x r tr st' Hp Hk Hitems Hrun Hle.
    apply Create_run in Hrun as [_ Hruns]; [|exact Hp].
    exact (stores_run_reaches _ _ _ _ Hruns k x Hk Hitems Hle). }
  - intros name settings Hempty. apply configure_store_empty. exact Hempty.
  - intros Hall. unfold Configure, bind, get_self.
    apply all_empty_range in Hall.
    destruct (configure_stores_empty _ Hall st) as (tr & new & Heq & Hp & Hn & Hnew).
    exists tr, new. rewrite Heq. repeat split; assumption.
  - intros x rest store e1 r tr st' Hp Hreq Hitems Hcss Hrun.
    destruct (Progress (self st)) as [p|] eqn:Hprog; [|contradiction].
    rewrite (Create_attached st p Hprog), Hreq in Hrun.
    simpl in Hrun. unfold bind in Hrun.
    destruct (create_store (self st) x st) as [[r1 t1] st1] eqn:H1.
    pose proof (first_store_calls _ _ _ _ _ _ _ _ Hitems Hcss H1)
      as (err & Hcalls & Hr1 & Hself).
    destruct r1 as [[]|e].
    + destruct (create_stores (self st) rest st1) as [[r2 t2] st2] eqn:H2.
      injection Hrun as <- <- <-.
      exists err, (remote_calls t2). rewrite remote_calls_app, Hcalls.
      split; [reflexivity|]. intros ->. simpl in H2.
      injection H2 as <- <- <-. reflexivity.
    + injection Hrun as <- <- <-. exists err, []. split; [exact Hcalls|auto].
Qed.

End Claims.

(** * The scenarios, checked *)

Module Checks.
Import Scenarios.

(** The spec's scenario: one store, one entry, the answer "abc123"; three
    remote calls in order. *)
Example tokens_three_calls :
  @provision _ forwards tokens_asked =
    [store_call Mock.tokens_store (Ok created);
     entry_call created None {| item_Name := "api-key"; Secret := "abc123" |};
     link_call (self tokens_asked) created None].
Proof. vm_compute. reflexivity. Qed.

(** C1 fails on the code: in non-interactive mode the entry with the
    configured literal "abc123" does not resolve to it; [Configure] fails
    with the blank-value error and adds nothing. *)
Lemma configured_value_ignored :
  (∃ settings,
     Setup (self preset_quiet) !! "tokens" = Some settings ∧
     item_Value <$> (Items settings !! "api-key") = Some (Some "abc123")) ∧
  NonInteractive (self preset_quiet) = true ∧
  @Configure _ forwards preset_quiet
    = (Err (errors_New "value cannot be blank"), [], preset_quiet).
Proof.
  split; [|split].
  - eexists. split; vm_compute; reflexivity.
  - reflexivity.
  - vm_compute. reflexivity.
Qed.

(** C7 fails on the code: over the same setup mapping, with the same
    answers and the same remote service, two iteration orders give two
    different sequences of remote calls. *)
Lemma iteration_order_changes_calls :
  @provision _ forwards two_asked ≠ @provision _ backwards two_asked.
Proof. vm_compute. discriminate. Qed.

(** [Create] with no progress sink on a configured provisioner. *)
Lemma Create_without_progress_witness :
  Progress (self (tokens_ready None None)) = None ∧
  @Create _ forwards (tokens_ready None None) =
    (Err (RemediationError
            (errors_New "internal logic error: no text.Progress configured for setup.SecretStores")
            "file an issue"),
     [], tokens_ready None None).
Proof.
  split; [reflexivity|].
  apply (@Create_without_progress _ forwards (tokens_ready None None)).
  reflexivity.
Defined.

(** Non-interactive mode over the entry with a configured literal. *)
Lemma Configure_quiet_witness :
  (AcceptDefaults (self preset_quiet) = true
   ∨ NonInteractive (self preset_quiet) = true) ∧
  ∃ r new,
    @Configure _ forwards preset_quiet =
      (r, [], {| self := set_required (self preset_quiet)
                           (required (self preset_quiet) ++ new);
                 env := env preset_quiet |}) ∧
    Forall (λ x, store_Items x = []) new ∧
    ((r = Ok tt ∧
      map_Forall (λ _ settings, Items settings = ∅) (Setup (self preset_quiet)) ∧
      Name <$> new = (@range_Setup _ forwards (Setup (self preset_quiet))).*1)
     ∨ (r = Err blank ∧
        ∃ name settings,
          Setup (self preset_quiet) !! name = Some settings ∧
          Items settings ≠ ∅)).
Proof.
  split; [right; reflexivity|].
  apply (@Configure_quiet _ forwards preset_quiet). right. reflexivity.
Defined.

(** The spec's scenario: non-interactive mode, no value supplied. *)
Lemma Configure_rejects_blank_witness :
  (AcceptDefaults (self tokens_quiet) = true
   ∨ NonInteractive (self tokens_quiet) = true) ∧
  Setup (self tokens_quiet) !! "tokens"
    = Some (Mock.store "" [("api-key", Mock.entry "" None)]) ∧
  Items (Mock.store "" [("api-key", Mock.entry "" None)]) !! "api-key"
    = Some (Mock.entry "" None) ∧
  item_Value (Mock.entry "" None) = None ∧
  ∃ new,
    @Configure _ forwards tokens_quiet =
      (Err (errors_New "value cannot be blank"), [],
       {| self := set_required (self tokens_quiet)
                    (required (self tokens_quiet) ++ new);
          env := env tokens_quiet |}) ∧
    Forall (λ x, store_Items x = []) new.
Proof.
  assert (NonInteractive (self tokens_quiet) = true) as Hmode by reflexivity.
  assert (Setup (self tokens_quiet) !! "tokens"
          = Some (Mock.store "" [("api-key", Mock.entry "" None)])) as Hstore
    by (vm_compute; reflexivity).
  assert (Items (Mock.store "" [("api-key", Mock.entry "" None)]) !! "api-key"
          = Some (Mock.entry "" None)) as Hitem
    by (vm_compute; reflexivity).
  split; [right; exact Hmode|]. split; [exact Hstore|].
  split; [exact Hitem|]. split; [reflexivity|].
  exact (proj1 (@Configure_rejects_blank _ forwards tokens_quiet)
           (or_intror Hmode) "tokens" _ "api-key" _ Hstore Hitem eq_refl).
Defined.

(** The operator types nothing: the blank answer ends the run. *)
Lemma Configure_keeps_answers_witness :
  (@Configure _ forwards tokens_blank).1.1 = Err (errors_New "value cannot be blank") ∧
  ∃ new,
    self (@Configure _ forwards tokens_asked).2
      = set_required (self tokens_asked) (required (self tokens_asked) ++ new) ∧
    Name <$> new = (@range_Setup _ forwards (Setup (self tokens_asked))).*1 ∧
    item_keys <$> new
      = @keys_in_range _ forwards <$> @range_Setup _ forwards (Setup (self tokens_asked)) ∧
    Secret <$> flat_map store_Items new = ["abc123"].
Proof.
  split.
  - refine (proj2 (proj1 (@Configure_keeps_answers _ forwards tokens_blank
                            _ _ _ eq_refl)
                     [Stdout_Break;
                      Stdout_Output "Configuring secret store '%s'" ["tokens"];
                      Stdout_Break;
                      Stdout_Output "Create a secret store entry called '%s'" ["api-key"];
                      Stdout_Break]
                     "Value: " [] _)).
    vm_compute. reflexivity.
  - exact (proj2 (proj2 (@Configure_keeps_answers _ forwards tokens_asked
                           (Ok tt)
                           (@Configure _ forwards tokens_asked).1.2
                           (@Configure _ forwards tokens_asked).2
                           eq_refl))
             eq_refl).
Defined.

(** The terminal is closed: the read fails. *)
Lemma Configure_prompt_failure_witness :
  (@Configure _ forwards tokens_closed).1.1
    = Err (fmt_Errorf_w "error reading prompt input: " (errors_New "EOF")).
Proof.
  refine (proj1 (proj2 (@Configure_prompt_failure _ forwards tokens_closed
                          _ _ _
                          [Stdout_Break;
                           Stdout_Output "Configuring secret store '%s'" ["tokens"];
                           Stdout_Break;
                           Stdout_Output "Create a secret store entry called '%s'" ["api-key"];
                           Stdout_Break]
                          "Value: " (errors_New "EOF") [] eq_refl _))).
  vm_compute. reflexivity.
Defined.

(** One store with one entry: the linkage call and what precedes it. *)
Lemma Create_call_order_witness :
  ∃ x store before,
    required (self (tokens_ready attached None))
      !! links [store_call Mock.tokens_store (Ok created);
                entry_call created None
                  {| item_Name := "api-key"; Secret := "abc123" |}]
      = Some x ∧
    link_input (self (tokens_ready attached None)) created
      = link_input (self (tokens_ready attached None)) store ∧
    [store_call Mock.tokens_store (Ok created);
     entry_call created None {| item_Name := "api-key"; Secret := "abc123" |}]
      = before ++ store_call x (Ok store)
                  :: (entry_call store None <$> store_Items x).
Proof.
  refine (proj1 (@Create_call_order _ forwards (tokens_ready attached None)
                   _ _ _ eq_refl)
            _ (link_input (self (tokens_ready attached None)) created) None [] _).
  vm_compute. reflexivity.
Defined.

(** The entry call fails: the run stops after reporting it. *)
Lemma Create_stops_at_failure_witness :
  (@Create _ forwards (tokens_ready attached (Some 1))).1.1
    = Err (fmt_Errorf_w "error creating secret store entry: " remote_failure).
Proof.
  refine (proj2 (proj2 (@Create_stops_at_failure _ forwards
                          (tokens_ready attached (Some 1)) _ _ _
                          [Progress_Step "Creating secret store 'tokens'...";
                           store_call Mock.tokens_store (Ok created);
                           Progress_Step "Creating secret store entry 'api-key'..."]
                          (entry_call created (Some remote_failure)
                             {| item_Name := "api-key"; Secret := "abc123" |})
                          [Progress_Fail] remote_failure eq_refl _ eq_refl))).
  vm_compute. reflexivity.
Defined.

(** Two stores, three answers, every remote call succeeding. *)
Lemma provisioning_follows_iteration_witness :
  ∃ new ids,
    required (self (@Configure _ forwards two_asked).2)
      = required (self two_asked) ++ new ∧
    Name <$> new = (@range_Setup _ forwards (Setup (self two_asked))).*1 ∧
    item_keys <$> new
      = @keys_in_range _ forwards <$> @range_Setup _ forwards (Setup (self two_asked)) ∧
    Secret <$> flat_map store_Items new = ["a"; "b"; "c"] ∧
    length ids = length (required (self (@Configure _ forwards two_asked).2)) ∧
    @provision _ forwards two_asked =
      flat_map (λ p, store_calls (self (@Configure _ forwards two_asked).2) p.1 p.2)
               (zip (required (self (@Configure _ forwards two_asked).2)) ids).
Proof.
  exact (@provisioning_follows_iteration _ forwards two_asked
           (@Configure _ forwards two_asked).1.2
           (@Configure _ forwards two_asked).2
           (@Create _ forwards (@Configure _ forwards two_asked).2).1.2
           (@Create _ forwards (@Configure _ forwards two_asked).2).2
           eq_refl eq_refl).
Defined.

(** A store without entries: configured silently, created and linked, also
    when it comes second in the required list. *)
Lemma empty_store_two_calls_witness :
  (∃ tr new,
     @Configure _ forwards vault_asked =
       (Ok tt, tr,
        {| self := set_required (self vault_asked) (required (self vault_asked) ++ new);
           env := env vault_asked |}) ∧
     prompts tr = [] ∧
     Name <$> new = (@range_Setup _ forwards (Setup (self vault_asked))).*1 ∧
     Forall (λ x, store_Items x = []) new) ∧
  (∃ err tail,
     remote_calls (@Create _ forwards vault_ready).1.2 =
       store_call {| Name := "vault"; store_Items := [] |}
                  (Ok {| ID := "id-vault"; fastly_Name := "vault" |})
       :: link_call (self vault_ready) {| ID := "id-vault"; fastly_Name := "vault" |} err
       :: tail ∧
     (@nil SecretStore = [] → tail = [])) ∧
  ∃ pre sr post,
    remote_calls (@Create _ forwards MoreScenarios.vault_second).1.2
      = pre ++ store_call MoreScenarios.vault_store sr :: post ∧
    links pre = 1 ∧
    (pre = [] ∨ ∃ pre' i', pre = pre' ++ [API_CreateResource i' None]) ∧
    match sr with
    | Ok store =>
        ∃ err post',
          post = link_call (self MoreScenarios.vault_second) store err :: post'
    | Err _ => post = []
    end.
Proof.
  split; [|split].
  - refine (proj1 (proj2 (@empty_store_two_calls _ forwards vault_asked)) _).
    intros name settings Hlook.
    assert (name = "vault") as ->.
    { destruct (decide (name = "vault")) as [|Hne]; [assumption|].
      unfold vault_asked, Mock.vault in Hlook. simpl in Hlook.
      rewrite lookup_singleton_ne in Hlook by congruence. discriminate. }
    unfold vault_asked, Mock.vault in Hlook. simpl in Hlook.
    rewrite lookup_singleton_eq in Hlook. injection Hlook as <-. reflexivity.
  - refine (proj1 (proj2 (proj2 (@empty_store_two_calls _ forwards vault_ready)))
              {| Name := "vault"; store_Items := [] |} []
              {| ID := "id-vault"; fastly_Name := "vault" |} _ _ _ _
              _ eq_refl eq_refl eq_refl eq_refl).
    discriminate.
  - refine (proj2 (proj2 (proj2 (@empty_store_two_calls _ forwards
                                   MoreScenarios.vault_second)))
              1 MoreScenarios.vault_store _ _ _ _ eq_refl eq_refl eq_refl _).
    + discriminate.
    + vm_compute. lia.
Defined.

End Checks.

(** * Further properties of [Create] *)

Lemma steps_app t1 t2 : steps (t1 ++ t2) = steps t1 ++ steps t2.
Proof. apply omap_app. Qed.

Lemma steps_entries_created store items :
  steps (entries_created store items)
  = (λ it, entry_message (item_Name it)) <$> items.
Proof.
  induction items as [|it rest IH]; [reflexivity|].
  change (entries_created store (it :: rest))
    with (entry_events store None it ++ entries_created store rest).
  rewrite steps_app, IH. reflexivity.
Qed.

(** The progress messages of one turn of the loop. *)
Lemma store_run_steps s x r tr :
  store_run s x r tr →
  steps tr `prefix_of` store_plan x ∧ (r = Ok tt → steps tr = store_plan x).
Proof.
  destruct 1 as [e0|store done it rest e0 Hsplit|store e0|store];
    rewrite ?steps_app, ?steps_entries_created; unfold store_plan.
  - split; [|discriminate]. eexists. reflexivity.
  - split; [|discriminate]. rewrite Hsplit, fmap_app, fmap_cons.
    exists (((λ it0, entry_message (item_Name it0)) <$> rest)
            ++ [link_message (Name x)]).
    simpl. rewrite <- !app_assoc. reflexivity.
  - split; [|discriminate]. exists []. simpl. rewrite !app_nil_r. reflexivity.
  - split; [exists []; rewrite app_nil_r|intros _]; reflexivity.
Qed.

Lemma stores_run_steps s stores r tr :
  stores_run s stores r tr →
  steps tr `prefix_of` plan stores ∧ (r = Ok tt → steps tr = plan stores).
Proof.
  induction 1 as [|x rest r t1 t2 H1 _ [IHp IHe]|x rest e t1 H1].
  - split; reflexivity.
  - destruct (store_run_steps _ _ _ _ H1) as [_ Hblock].
    rewrite steps_app, (Hblock eq_refl).
    change (plan (x :: rest)) with (store_plan x ++ plan rest). split.
    + apply prefix_app. exact IHp.
    + intros Hr. f_equal. exact (IHe Hr).
  - destruct (store_run_steps _ _ _ _ H1) as [Hblock _].
    split; [|discriminate].
    change (plan (x :: rest)) with (store_plan x ++ plan rest).
    apply prefix_app_r. exact Hblock.
Qed.

Lemma entries_created_announced store items :
  entries_created store items
  = flat_map announced
      ((λ it, (entry_message (item_Name it), entry_call store None it)) <$> items).
Proof.
  induction items as [|it rest IH]; [reflexivity|].
  change (entries_created store (it :: rest))
    with (entry_events store None it ++ entries_created store rest).
  rewrite IH. reflexivity.
Qed.

Lemma well_announced_entries store err items :
  Forall well_announced
    ((λ it, (entry_message (item_Name it), entry_call store err it)) <$> items).
Proof.
  apply Forall_fmap, Forall_forall. intros it _. split; [reflexivity|].
  simpl. intros m [= <-]. reflexivity.
Qed.

(** One turn of the loop as announced calls, with the report of a failure
    at the end if there is one. *)
Lemma store_run_announced s x r tr :
  store_run s x r tr →
  ∃ l tail,
    tr = flat_map announced l ++ tail ∧ Forall well_announced l ∧
    (tail = [] ∨ tail = [Progress_Fail]) ∧ (r = Ok tt → tail = []).
Proof.
  destruct 1 as [e0|store done it rest e0 Hsplit|store e0|store].
  - exists [(store_message (Name x), store_call x (Err e0))], [Progress_Fail].
    split; [reflexivity|]. split; [|split; [right; reflexivity|discriminate]].
    repeat constructor. simpl. intros m [= <-]. reflexivity.
  - exists ((store_message (Name x), store_call x (Ok store))
            :: ((λ it0, (entry_message (item_Name it0), entry_call store None it0))
                <$> done)
            ++ [(entry_message (item_Name it), entry_call store (Some e0) it)]),
           [Progress_Fail].
    split.
    { rewrite entries_created_announced. simpl. rewrite flat_map_app. simpl.
      rewrite <- !app_assoc. reflexivity. }
    split; [|split; [right; reflexivity|discriminate]].
    constructor; [split; [reflexivity|simpl; intros m [= <-]; reflexivity]|].
    apply Forall_app. split; [apply well_announced_entries|].
    repeat constructor. simpl. intros m [= <-]. reflexivity.
  - exists ((store_message (Name x), store_call x (Ok store))
            :: ((λ it0, (entry_message (item_Name it0), entry_call store None it0))
                <$> store_Items x)
            ++ [(link_message (Name x), link_call s store (Some e0))]),
           [Progress_Fail].
    split.
    { rewrite entries_created_announced. simpl. rewrite flat_map_app. simpl.
      rewrite <- !app_assoc. reflexivity. }
    split; [|split; [right; reflexivity|discriminate]].
    constructor; [split; [reflexivity|simpl; intros m [= <-]; reflexivity]|].
    apply Forall_app. split; [apply well_announced_entries|].
    repeat constructor. simpl. discriminate.
  - exists ((store_message (Name x), store_call x (Ok store))
            :: ((λ it0, (entry_message (item_Name it0), entry_call store None it0))
                <$> store_Items x)
            ++ [(link_message (Name x), link_call s store None)]),
           [].
    split.
    { rewrite entries_created_announced. simpl. rewrite flat_map_app. simpl.
      rewrite <- !app_assoc. reflexivity. }
    split; [|split; [left; reflexivity|reflexivity]].
    constructor; [split; [reflexivity|simpl; intros m [= <-]; reflexivity]|].
    apply Forall_app. split; [apply well_announced_entries|].
    repeat constructor. simpl. discriminate.
Qed.

Lemma stores_run_announced s stores r tr :
  stores_run s stores r tr →
  ∃ l tail,
    tr = flat_map announced l ++ tail ∧ Forall well_announced l ∧
    (tail = [] ∨ tail = [Progress_Fail]).
Proof.
  induction 1 as [|x rest r t1 t2 H1 _ IH|x rest e t1 H1].
  - exists [], []. repeat split; [constructor|left; reflexivity].
  - destruct (store_run_announced _ _ _ _ H1) as (l1 & tail1 & -> & Hl1 & _ & Hnil).
    destruct IH as (l2 & tail2 & -> & Hl2 & Htail).
    rewrite (Hnil eq_refl), app_nil_r.
    exists (l1 ++ l2), tail2. rewrite flat_map_app, <- app_assoc.
    split; [reflexivity|]. split; [apply Forall_app; split; assumption|exact Htail].
  - destruct (store_run_announced _ _ _ _ H1) as (l1 & tail1 & -> & Hl1 & Htail & _).
    exists l1, tail1. repeat split; assumption.
Qed.

(** In a sequence of announced calls a call sits right after its step. *)
Lemma announced_split l tail pre ev post :
  Forall well_announced l →
  tail = [] ∨ tail = [Progress_Fail] →
  flat_map announced l ++ tail = pre ++ ev :: post →
  is_remote ev = true →
  ∃ pre' msg,
    pre = pre' ++ [Progress_Step msg] ∧ ∀ m, announcement ev = Some m → msg = m.
Proof.
  intros Hl Htail. revert pre. induction Hl as [|[msg c] l [Hc Hm] _ IH];
    intros pre Heq Hev; simpl in Heq.
  - exfalso. destruct Htail as [-> | ->]; destruct pre as [|a [|b pre]];
      try discriminate. injection Heq as <- _. discriminate.
  - destruct pre as [|a [|b pre]]; simpl in Heq.
    + injection Heq as <- _. discriminate.
    + injection Heq as <- <- _. exists [], msg. split; [reflexivity|exact Hm].
    + injection Heq as <- <- Heq.
      destruct (IH pre Heq Hev) as (pre' & msg' & -> & Hmsg).
      exists (Progress_Step msg :: c :: pre'), msg'. split; [reflexivity|exact Hmsg].
Qed.




Lemma uneventful_entries_created store items :
  Forall uneventful (entries_created store items).
Proof.
  induction items as [|it rest IH]; [constructor|].
  repeat constructor; try discriminate. exact IH.
Qed.

(** One turn of the loop fails exactly on a failed call. *)
Lemma store_run_failure s x r tr :
  store_run s x r tr →
  match r with
  | Ok _ => Forall uneventful tr
  | Err e =>
      ∃ pre ev e0,
        tr = pre ++ [ev; Progress_Fail] ∧ Forall uneventful pre ∧
        call_failed ev = Some e0 ∧
        e = fmt_Errorf_w (failure_context s ev) e0
  end.
Proof.
  destruct 1 as [e0|store done it rest e0 Hsplit|store e0|store].
  - exists [Progress_Step ("Creating secret store '" +:+ Name x +:+ "'...")],
           (store_call x (Err e0)), e0.
    repeat split; repeat constructor; discriminate.
  - exists (store_events x (Ok store) ++ entries_created store done
            ++ [Progress_Step (entry_message (item_Name it))]),
           (entry_call store (Some e0) it), e0.
    split; [rewrite <- !app_assoc; reflexivity|]. split; [|split; reflexivity].
    apply Forall_app. split; [repeat constructor; discriminate|].
    apply Forall_app. split; [apply uneventful_entries_created|].
    repeat constructor; discriminate.
  - exists (store_events x (Ok store) ++ entries_created store (store_Items x)
            ++ [Progress_Step (link_message (Name x))]),
           (link_call s store (Some e0)), e0.
    split; [rewrite <- !app_assoc; reflexivity|]. split; [|split; reflexivity].
    apply Forall_app. split; [repeat constructor; discriminate|].
    apply Forall_app. split; [apply uneventful_entries_created|].
    repeat constructor; discriminate.
  - apply Forall_app. split; [repeat constructor; discriminate|].
    apply Forall_app. split; [apply uneventful_entries_created|].
    repeat constructor; discriminate.
Qed.

Lemma stores_run_failure s stores r tr :
  stores_run s stores r tr →
  match r with
  | Ok _ => Forall uneventful tr
  | Err e =>
      ∃ pre ev e0,
        tr = pre ++ [ev; Progress_Fail] ∧ Forall uneventful pre ∧
        call_failed ev = Some e0 ∧
        e = fmt_Errorf_w (failure_context s ev) e0
  end.
Proof.
  induction 1 as [|x rest r t1 t2 H1 _ IH|x rest e t1 H1].
  - constructor.
  - apply store_run_failure in H1. simpl in H1. destruct r as [[]|e].
    + apply Forall_app. split; assumption.
    + destruct IH as (pre & ev & e0 & -> & Hpre & Hev & ->).
      exists (t1 ++ pre), ev, e0. rewrite <- app_assoc.
      split; [reflexivity|]. split; [apply Forall_app; split; assumption|].
      split; [exact Hev|reflexivity].
  - apply (store_run_failure _ _ _ _ H1).
Qed.

(** * Further properties of [Configure] *)

Lemma written_app t1 t2 : written (t1 ++ t2) = written t1 ++ written t2.
Proof. apply filter_app. Qed.

Lemma written_item_intro key item : written (item_intro key item) = item_intro key item.
Proof.
  unfold item_intro. destruct (String.eqb (item_Description item) ""); reflexivity.
Qed.

Lemma written_store_intro name settings :
  written (store_intro name settings) = store_intro name settings.
Proof.
  unfold store_intro. destruct (String.eqb (Description settings) ""); reflexivity.
Qed.

Lemma stops_quietly_clean tr : stops_at_verdict tr None → clean tr.
Proof.
  induction tr as [|ev tr IH]; simpl; [constructor|].
  destruct (prompt_verdict ev) eqn:Hev.
  - intros [_ Hnone]. discriminate.
  - intros Hstop. constructor; [exact Hev | exact (IH Hstop)].
Qed.

Lemma clean_prompts_answered tr :
  clean tr → length (prompts tr) = length (answers tr).
Proof.
  induction 1 as [|ev tr Hev _ IH]; [reflexivity|].
  change (ev :: tr) with ([ev] ++ tr).
  unfold prompts in *. rewrite filter_app, answers_app, !length_app, IH.
  f_equal. destruct ev as [| | prompt [v|e] | | | | |]; try reflexivity.
  simpl in Hev. discriminate.
Qed.

Section ConfigureMore.
Context {E : Type} `{!Collaborators E}.

Lemma range_Setup_nil : range_Setup (∅ : gmap string SetupSecretStore) = [].
Proof.
  apply Permutation_nil_r. rewrite (range_Setup_perm ∅).
  rewrite map_to_list_empty. reflexivity.
Qed.

Lemma length_keys_in_range p : length (keys_in_range p) = size (Items p.2).
Proof.
  unfold keys_in_range. rewrite length_fmap, (range_Items_perm p.1 (Items p.2)).
  apply length_map_to_list.
Qed.

Lemma written_prompt prompt r : written [Stdin_InputSecure prompt r] = [].
Proof. reflexivity. Qed.

Opaque item_intro store_intro.

(** What the loop over the items of a store writes. *)
Lemma configure_items_written s items : ∀ acc (st : State E) r tr st',
  interactive s = true →
  configure_items s acc items st = (r, tr, st') →
  written tr `prefix_of` items_output items ∧
  (failure r = None → written tr = items_output items).
Proof.
  induction items as [|[key item] rest IH]; intros acc st r tr st' Hi; simpl.
  - intros [= <- <- <-]. split; reflexivity.
  - unfold bind. rewrite configure_item_prompted by exact Hi. cbn zeta.
    change (items_output ((key, item) :: rest))
      with (item_intro key item ++ items_output rest).
    destruct (text_InputSecure _ (env st)) as [[v|err] e'].
    + destruct (String.eqb v "").
      * intros [= <- <- <-].
        rewrite written_app, written_item_intro, written_prompt, app_nil_r.
        split; [apply prefix_app_r; reflexivity|discriminate].
      * destruct (configure_items s _ rest _) as [[r2 t2] st2] eqn:H2.
        apply (IH _ _ _ _ _ Hi) in H2 as [Hp He]. intros [= <- <- <-].
        rewrite !written_app, written_item_intro, written_prompt, app_nil_r.
        split.
        -- apply prefix_app. exact Hp.
        -- intros Hr. f_equal. exact (He Hr).
    + intros [= <- <- <-].
      rewrite written_app, written_item_intro, written_prompt, app_nil_r.
      split; [apply prefix_app_r; reflexivity|discriminate].
Qed.

(** What the loop over the stores writes, and which stores it has added when
    it stops. *)
Lemma configure_stores_written stores : ∀ (st : State E) r tr st',
  interactive (self st) = true →
  configure_stores stores st = (r, tr, st') →
  written tr `prefix_of` flat_map store_output stores ∧
  (r = Ok tt → written tr = flat_map store_output stores).
Proof.
  induction stores as [|[name settings] rest IH]; intros st r tr st' Hi; simpl.
  - intros [= <- <- <-]. split; reflexivity.
  - unfold bind. rewrite configure_store_unfold. cbn zeta. rewrite Hi.
    change (store_output (name, settings))
      with (store_intro name settings
            ++ items_output (range_Items name (Items settings))).
    destruct (configure_items _ _ _ st) as [[[items|e] t1] st1] eqn:H1;
      pose proof (configure_items_spec _ _ _ _ _ _ _ H1) as [Hs1 _];
      apply (configure_items_written _ _ _ _ _ _ _ Hi) in H1 as [Hp1 He1].
    + match goal with
      | |- context [configure_stores rest ?st0] =>
          destruct (configure_stores rest st0) as [[r2 t2] st2] eqn:H2
      end.
      apply IH in H2 as [Hp2 He2]; [|simpl; rewrite Hs1; exact Hi].
      intros [= <- <- <-].
      rewrite !written_app, written_store_intro, (He1 eq_refl), <- !app_assoc.
      split.
      * apply prefix_app, prefix_app. exact Hp2.
      * intros Hr. do 2 f_equal. exact (He2 Hr).
    + intros [= <- <- <-]. rewrite written_app, written_store_intro.
      split; [|discriminate]. rewrite <- app_assoc. apply prefix_app.
      apply prefix_app_r. exact Hp1.
Qed.

Transparent item_intro store_intro.


(** The entries added against the entries declared. *)
Lemma count_keys (new : list SecretStore) : ∀ stores : list (string * SetupSecretStore),
  item_keys <$> new = keys_in_range <$> stores →
  length (flat_map store_Items new) = sum_list_with (λ p, size (Items p.2)) stores.
Proof.
  induction new as [|x new IH]; intros [|p stores]; try discriminate;
    [reflexivity|].
  rewrite !fmap_cons. intros [= Hhd Htl]. simpl.
  rewrite length_app, (IH _ Htl), <- length_keys_in_range, <- Hhd.
  unfold item_keys. rewrite length_fmap. reflexivity.
Qed.

End ConfigureMore.

Lemma elem_of_flat_map_intro {A B} (f : A → list B) (l : list A) a b :
  a ∈ l → b ∈ f a → b ∈ flat_map f l.
Proof.
  intros Ha Hb. induction Ha as [a l|a a' l _ IH]; simpl; apply elem_of_app.
  - left. exact Hb.
  - right. exact (IH Hb).
Qed.

(** * Further theorems *)

Section Further.
Context {E : Type} `{!Collaborators E}.

(** What [Configure] writes to [Stdout] is made of the setup alone: the
    names, keys and descriptions in iteration order, cut short where the run
    stops, and nothing at all in accept-defaults or non-interactive mode.  No
    answer of the operator is written. *)
Theorem Configure_writes_setup_only (st : State E) r tr st' :
  Configure st = (r, tr, st') →
  written tr `prefix_of` expected_output (self st) ∧
  (r = Ok tt → written tr = expected_output (self st)).
Proof.
  intros Hrun. unfold expected_output.
  destruct (interactive (self st)) eqn:Hi.
  - unfold Configure, bind, get_self in Hrun.
    destruct (configure_stores _ st) as [[r0 t0] st0] eqn:Hloop.
    injection Hrun as <- <- <-. simpl.
    exact (configure_stores_written _ _ _ _ _ Hi Hloop).
  - destruct (Configure_silent st Hi) as (r0 & new & Heq & _).
    rewrite Heq in Hrun. injection Hrun as <- <- <-. split; reflexivity.
Qed.

(** The messages [Create] hands to the progress sink are made of the names
    of the required stores and of their entries, in order, cut short where
    the run stops.  No secret is part of a message. *)
Theorem Create_reports_names_only (st : State E) r tr st' :
  Create st = (r, tr, st') →
  steps tr `prefix_of` plan (required (self st)) ∧
  (r = Ok tt → steps tr = plan (required (self st))).
Proof.
  intros Hrun. destruct (Progress (self st)) as [p|] eqn:Hp.
  - apply Create_run in Hrun as [_ Hruns]; [|rewrite Hp; discriminate].
    exact (stores_run_steps _ _ _ _ Hruns).
  - rewrite (Create_unattached st Hp) in Hrun. injection Hrun as <- <- <-.
    split; [apply prefix_nil|discriminate].
Qed.

(** Every remote call of [Create] comes right after a progress step, and
    for the creation of a store or of an entry the step's message carries the
    name sent in the request. *)
Theorem Create_announces_each_call (st : State E) r tr st' pre ev post :
  Create st = (r, tr, st') →
  tr = pre ++ ev :: post →
  is_remote ev = true →
  ∃ pre' msg,
    pre = pre' ++ [Progress_Step msg] ∧
    ∀ m, announcement ev = Some m → msg = m.
Proof.
  intros Hrun Htr Hev. destruct (Progress (self st)) as [p|] eqn:Hp.
  - apply Create_run in Hrun as [_ Hruns]; [|rewrite Hp; discriminate].
    destruct (stores_run_announced _ _ _ _ Hruns) as (l & tail & Heq & Hl & Htail).
    rewrite Heq in Htr. exact (announced_split _ _ _ _ _ Hl Htail Htr Hev).
  - rewrite (Create_unattached st Hp) in Hrun. injection Hrun as <- <- <-.
    destruct pre; discriminate.
Qed.

(** With a progress sink attached, [Create] returns an error only for a
    remote call that failed: the trace ends with that call and the report of
    the failure, nothing before it failed, and the error is the call's
    behind the context of its step.  When [Create] returns nil no call
    failed and no failure was reported. *)
Theorem Create_fails_only_on_failed_call (st : State E) r tr st' :
  Progress (self st) ≠ None →
  Create st = (r, tr, st') →
  match r with
  | Ok _ => Forall uneventful tr
  | Err e =>
      ∃ pre ev e0,
        tr = pre ++ [ev; Progress_Fail] ∧ Forall uneventful pre ∧
        call_failed ev = Some e0 ∧
        e = fmt_Errorf_w (failure_context (self st) ev) e0
  end.
Proof.
  intros Hp Hrun. apply Create_run in Hrun as [_ Hruns]; [|exact Hp].
  exact (stores_run_failure _ _ _ _ Hruns).
Qed.



(** A [Configure] that succeeds has asked once for every entry the setup
    declares, and got an answer each time. *)
Theorem Configure_one_prompt_per_entry (st : State E) tr st' :
  Configure st = (Ok tt, tr, st') →
  length (prompts tr) = declared_entries (Setup (self st)) ∧
  length (answers tr) = declared_entries (Setup (self st)).
Proof.
  intros Hrun.
  destruct (Configure_run _ _ _ _ Hrun) as (new & _ & _ & Hstop & Hok).
  destruct (Hok eq_refl) as (_ & Hkeys & Hsecrets).
  assert (length (answers tr) = declared_entries (Setup (self st))) as Hlen.
  { rewrite <- Hsecrets, length_fmap, (count_keys _ _ Hkeys).
    unfold declared_entries.
    rewrite (range_Setup_perm (Setup (self st))). reflexivity. }
  split; [|exact Hlen].
  rewrite <- Hlen. apply clean_prompts_answered, stops_quietly_clean. exact Hstop.
Qed.

(** When [Predefined] answers false, [Configure] has nothing to visit: it
    returns nil, emits nothing and leaves the state as it was, in every
    mode. *)
Theorem Configure_nothing_declared (st : State E) :
  (Predefined st).1.1 = Ok false →
  Configure st = (Ok tt, [], st).
Proof.
  unfold Predefined, bind, get_self, ret. simpl. intros [= Hsize].
  apply bool_decide_eq_false in Hsize.
  assert (Setup (self st) = ∅) as Hempty
    by (apply map_size_empty_iff; lia).
  unfold Configure, bind, get_self. rewrite Hempty, range_Setup_nil.
  reflexivity.
Qed.

(** After a [Configure] that succeeded on a provisioner with no required
    store yet, every secret [Create] sends to the remote service is one of
    the operator's answers, and none is blank. *)
Theorem no_blank_secret_sent (st : State E) tr1 st1 r tr2 st2 i err :
  required (self st) = [] →
  Configure st = (Ok tt, tr1, st1) →
  Create st1 = (r, tr2, st2) →
  API_CreateSecret i err ∈ tr2 →
  cs_Secret i ≠ "" ∧ cs_Secret i ∈ answers tr1.
Proof.
  intros Hfresh Hconf Hcreate Hin.
  destruct (Configure_run _ _ _ _ Hconf) as (new & Hs & Hnb & _ & Hok).
  destruct (Hok eq_refl) as (_ & _ & Hsecrets).
  assert (required (self st1) = new) as Hreq by (rewrite Hs, Hfresh; reflexivity).
  destruct (Progress (self st1)) as [p|] eqn:Hp.
  - apply Create_run in Hcreate as [_ Hruns]; [|rewrite Hp; discriminate].
    assert (API_CreateSecret i err ∈ remote_calls tr2) as Hcall
      by (apply list_elem_of_filter; split; [exact I|exact Hin]).
    apply list_elem_of_split in Hcall as (pre & post & Hsplit).
    destruct (stores_run_entry _ _ _ _ Hruns _ _ _ _ Hsplit)
      as (x & store & before & done & it & rest & Hx & Hitems & -> & _).
    rewrite Hreq in Hx. apply list_elem_of_lookup_2 in Hx.
    assert (it ∈ store_Items x) as Hit
      by (rewrite Hitems; apply elem_of_app; right; left).
    simpl. split.
    + unfold no_blank in Hnb. rewrite Forall_forall in Hnb.
      specialize (Hnb x Hx). rewrite Forall_forall in Hnb. exact (Hnb it Hit).
    + rewrite <- Hsecrets. apply list_elem_of_fmap. exists it.
      split; [reflexivity|]. exact (elem_of_flat_map_intro _ _ _ _ Hx Hit).
  - rewrite (Create_unattached st1 Hp) in Hcreate. injection Hcreate as <- <- <-.
    apply elem_of_nil in Hin. contradiction.
Qed.

End Further.

(** ** [Configure] called twice *)

Lemma added_pairs {E : Type} `{!Collaborators E} (new : list SecretStore) :
  ∀ stores : list (string * SetupSecretStore),
    Name <$> new = stores.*1 →
    item_keys <$> new = keys_in_range <$> stores →
    Forall2 (λ x p, Name x = p.1 ∧ item_keys x = keys_in_range p) new stores.
Proof.
  induction new as [|x new IH]; intros [|p stores]; try discriminate.
  - constructor.
  - rewrite !fmap_cons. intros [= Hn Hns] [= Hk Hks].
    constructor; [split; assumption|]. exact (IH stores Hns Hks).
Qed.

Lemma keys_in_range_perm {E : Type} `{!Collaborators E} (p : string * SetupSecretStore) :
  keys_in_range p ≡ₚ (map_to_list (Items p.2)).*1.
Proof. unfold keys_in_range. rewrite (range_Items_perm p.1 (Items p.2)). reflexivity. Qed.

(** [Configure] adds to the required stores without looking at what is
    there.  Each call ranges over the setup anew, in an order of its own, so
    the two calls run under collaborators of their own.  Run twice with
    success, [Configure] leaves every store of the setup twice in the list:
    the second batch has the names of the first, possibly in another order,
    and each store of the first batch has a namesake in the second with the
    same keys, possibly in another order. *)
Theorem Configure_twice_doubles {E : Type} (first second : Collaborators E)
    (st : State E) tr1 st1 tr2 st2 :
  @Configure E first st = (Ok tt, tr1, st1) →
  @Configure E second st1 = (Ok tt, tr2, st2) →
  ∃ new1 new2,
    required (self st2) = required (self st) ++ new1 ++ new2 ∧
    Name <$> new1 = (@range_Setup E first (Setup (self st))).*1 ∧
    Name <$> new2 = (@range_Setup E second (Setup (self st))).*1 ∧
    Name <$> new2 ≡ₚ Name <$> new1 ∧
    ∀ x1, x1 ∈ new1 →
          ∃ x2, x2 ∈ new2 ∧ Name x2 = Name x1 ∧ item_keys x2 ≡ₚ item_keys x1.
Proof.
  intros H1 H2.
  destruct (@Configure_run E first _ _ _ _ H1) as (new1 & Hs1 & _ & _ & Hok1).
  destruct (@Configure_run E second _ _ _ _ H2) as (new2 & Hs2 & _ & _ & Hok2).
  destruct (Hok1 eq_refl) as (Hn1 & Hk1 & _).
  destruct (Hok2 eq_refl) as (Hn2 & Hk2 & _).
  rewrite Hs1 in Hs2, Hn2, Hk2. simpl in Hs2, Hn2, Hk2.
  exists new1, new2. rewrite Hs2. simpl. rewrite <- app_assoc.
  split; [reflexivity|]. split; [exact Hn1|]. split; [exact Hn2|]. split.
  - rewrite Hn1, Hn2.
    rewrite (@range_Setup_perm E first), (@range_Setup_perm E second).
    reflexivity.
  - intros x1 Hx1.
    pose proof (@added_pairs E first new1 _ Hn1 Hk1) as Hp1.
    pose proof (@added_pairs E second new2 _ Hn2 Hk2) as Hp2.
    apply list_elem_of_lookup in Hx1 as [i Hi].
    destruct (Forall2_lookup_l _ _ _ _ _ Hp1 Hi) as (p & Hpi & Hname1 & Hkeys1).
    apply list_elem_of_lookup_2 in Hpi.
    apply (@in_range_Setup E first) in Hpi.
    apply (@in_range_Setup E second) in Hpi.
    apply list_elem_of_lookup in Hpi as [j Hj].
    destruct (Forall2_lookup_r _ _ _ _ _ Hp2 Hj) as (x2 & Hx2 & Hname2 & Hkeys2).
    exists x2. split; [exact (list_elem_of_lookup_2 _ _ _ Hx2)|].
    split; [rewrite Hname1, Hname2; reflexivity|].
    rewrite Hkeys1, Hkeys2.
    rewrite (@keys_in_range_perm E first), (@keys_in_range_perm E second).
    reflexivity.
Qed.

(** * The store commands *)

Ltac member H :=
  repeat (apply elem_of_cons in H; destruct H as [H|H]);
  try (apply elem_of_nil in H; contradiction).

Section CommandFacts.
Context {E : Type} `{!CommandCollaborators E}.

(** [GetStoreCommand.Exec] refuses verbose together with JSON before
    anything is called.  An error of the API is returned as it is and added
    to the error log once, with nothing shown; nothing else is ever added to
    the error log. *)
Theorem GetStore_failure (cmd : GetStoreCommand) (e : E) r tr e' :
  GetStoreCommand_Exec cmd e = (r, tr, e') →
  (get_Verbose cmd && jsonOutput_enabled cmd = true →
   r = Some ErrInvalidVerboseJSONCombo ∧ tr = [] ∧ e' = e) ∧
  (∀ i err,
     API_GetSecretStore i (Err err) ∈ tr →
     r = Some err ∧ logged tr = [err] ∧ filter is_output tr = []) ∧
  (∀ err,
     err ∈ logged tr →
     r = Some err ∧ tr = [API_GetSecretStore (Input cmd) (Err err); ErrLog_Add err]).
Proof.
  unfold GetStoreCommand_Exec.
  destruct (get_Verbose cmd && jsonOutput_enabled cmd) eqn:Hguard.
  - intros [= <- <- <-]. split; [intros _; repeat split|].
    split; [intros i err Hin|intros err Hin]; member Hin.
  - destruct (GetSecretStore (Input cmd) e) as [[o|err0] e1].
    + destruct (jsonOutput_WriteJSON _ _ e1) as [[[|] werr] e2];
        intros [= <- <- <-]; (split; [discriminate|]);
        (split; [intros i err Hin|intros err Hin]); member Hin; discriminate.
    + intros [= <- <- <-]. split; [discriminate|]. split.
      * intros i err Hin. member Hin; [|discriminate].
        injection Hin as <- <-. repeat split.
      * intros err Hin. simpl in Hin. member Hin. subst. split; reflexivity.
Qed.

(** Whatever [GetStoreCommand.Exec] shows is the store the API returned to
    the one call made with the command's input.  The text form is printed
    only after [WriteJSON] declined, and the command then returns nil
    whatever [WriteJSON] returned as error; when [WriteJSON] accepted, its
    error is the command's. *)
Theorem GetStore_output (cmd : GetStoreCommand) (e : E) r tr e' :
  GetStoreCommand_Exec cmd e = (r, tr, e') →
  (∀ ev,
     ev ∈ tr → is_output ev = true →
     ∃ o rest,
       tr = API_GetSecretStore (Input cmd) (Ok o) :: rest ∧
       filter is_call rest = [] ∧ shown ev = Some o) ∧
  (∀ prefix o,
     Out_PrintSecretStore prefix o ∈ tr →
     r = None ∧ prefix = "" ∧ ∃ err, Out_WriteJSON (JSON_SecretStore o) false err ∈ tr) ∧
  (∀ v err, Out_WriteJSON v true err ∈ tr → r = err).
Proof.
  unfold GetStoreCommand_Exec.
  destruct (get_Verbose cmd && jsonOutput_enabled cmd).
  - intros [= <- <- <-].
    split; [intros ev Hin|split; [intros prefix o Hin|intros v err Hin]]; member Hin.
  - destruct (GetSecretStore (Input cmd) e) as [[o|err0] e1].
    + destruct (jsonOutput_WriteJSON _ _ e1) as [[[|] werr] e2];
        intros [= <- <- <-].
      * split; [|split].
        -- intros ev Hin Hout. member Hin; subst; try discriminate.
           eexists _, _. repeat split.
        -- intros prefix o0 Hin. member Hin; discriminate.
        -- intros v err Hin. member Hin; try discriminate.
           injection Hin as _ <-. reflexivity.
      * split; [|split].
        -- intros ev Hin Hout. member Hin; subst; try discriminate;
             eexists _, _; repeat split.
        -- intros prefix o0 Hin. member Hin; try discriminate.
           injection Hin as <- <-. split; [reflexivity|]. split; [reflexivity|].
           exists werr. apply elem_of_cons. right. apply elem_of_cons. left.
           reflexivity.
        -- intros v err Hin. member Hin; discriminate.
    + intros [= <- <- <-].
      split; [intros ev Hin Hout|split; [intros prefix o Hin|intros v err Hin]];
        member Hin; subst; discriminate.
Qed.

(** [DeleteCommand.Exec] refuses verbose together with JSON before anything
    is called.  An error of the API is returned as it is and added to the
    error log once, with nothing reported; nothing else is ever added to the
    error log. *)
Theorem Delete_failure (cmd : DeleteCommand) (e : E) r tr e' :
  DeleteCommand_Exec cmd e = (r, tr, e') →
  (delete_Verbose cmd && JSONOutput_Enabled cmd = true →
   r = Some ErrInvalidVerboseJSONCombo ∧ tr = [] ∧ e' = e) ∧
  (∀ i err,
     API_DeleteConfigStore i (Some err) ∈ tr →
     r = Some err ∧ logged tr = [err] ∧ filter is_output tr = []) ∧
  (∀ err,
     err ∈ logged tr →
     r = Some err ∧
     tr = [API_DeleteConfigStore (input cmd) (Some err); ErrLog_Add err]).
Proof.
  unfold DeleteCommand_Exec.
  destruct (delete_Verbose cmd && JSONOutput_Enabled cmd) eqn:Hguard.
  - intros [= <- <- <-]. split; [intros _; repeat split|].
    split; [intros i err Hin|intros err Hin]; member Hin.
  - destruct (DeleteConfigStore (input cmd) e) as [[err0|] e1].
    + intros [= <- <- <-]. split; [discriminate|]. split.
      * intros i err Hin. member Hin; [|discriminate].
        injection Hin as <- <-. repeat split.
      * intros err Hin. simpl in Hin. member Hin. subst. split; reflexivity.
    + destruct (JSONOutput_Enabled cmd).
      * cbn zeta. destruct (JSONOutput_WriteJSON _ _ e1) as [[ok werr] e2].
        intros [= <- <- <-]. split; [discriminate|].
        split; [intros i err Hin|intros err Hin]; member Hin; discriminate.
      * intros [= <- <- <-]. split; [discriminate|].
        split; [intros i err Hin|intros err Hin]; member Hin; discriminate.
Qed.


End CommandFacts.

(** * More scenarios, checked *)

Module MoreChecks.
Import Scenarios MoreScenarios.

(** One store, one entry, the answer "abc123": what is written. *)
Lemma Configure_writes_setup_only_witness :
  written (@Configure _ forwards tokens_asked).1.2
  = @expected_output _ forwards (self tokens_asked).
Proof.
  exact (proj2 (@Configure_writes_setup_only _ forwards tokens_asked (Ok tt)
                  (@Configure _ forwards tokens_asked).1.2
                  (@Configure _ forwards tokens_asked).2 eq_refl)
           eq_refl).
Defined.

(** One required store with one entry, every call succeeding. *)
Lemma Create_reports_names_only_witness :
  steps (@Create _ forwards (tokens_ready attached None)).1.2
  = plan (required (self (tokens_ready attached None))).
Proof.
  exact (proj2 (@Create_reports_names_only _ forwards (tokens_ready attached None)
                  (Ok tt)
                  (@Create _ forwards (tokens_ready attached None)).1.2
                  (@Create _ forwards (tokens_ready attached None)).2 eq_refl)
           eq_refl).
Defined.

(** The entry call and the step before it. *)
Lemma Create_announces_each_call_witness :
  ∃ pre' msg,
    [Progress_Step "Creating secret store 'tokens'...";
     store_call Mock.tokens_store (Ok created);
     Progress_Step "Creating secret store entry 'api-key'..."]
      = pre' ++ [Progress_Step msg] ∧
    ∀ m, announcement (entry_call created None api_key) = Some m → msg = m.
Proof.
  refine (@Create_announces_each_call _ forwards (tokens_ready attached None)
            _ _ _ _ (entry_call created None api_key)
            [Progress_Step "Creating resource link between service and secret store 'tokens'...";
             link_call (self (tokens_ready attached None)) created None]
            eq_refl _ eq_refl).
  vm_compute. reflexivity.
Defined.

(** The entry call fails. *)
Lemma Create_fails_only_on_failed_call_witness :
  ∃ pre ev e0,
    (@Create _ forwards (tokens_ready attached (Some 1))).1.2
      = pre ++ [ev; Progress_Fail] ∧
    Forall uneventful pre ∧
    call_failed ev = Some e0 ∧
    fmt_Errorf_w "error creating secret store entry: " remote_failure
      = fmt_Errorf_w (failure_context (self (tokens_ready attached (Some 1))) ev) e0.
Proof.
  refine (@Create_fails_only_on_failed_call _ forwards
            (tokens_ready attached (Some 1))
            (Err (fmt_Errorf_w "error creating secret store entry: " remote_failure))
            _ _ _ eq_refl).
  discriminate.
Defined.


(** [Configure] twice over two stores, the second time in the other
    order. *)
Lemma Configure_twice_doubles_witness :
  Name <$> required (self (@Configure _ backwards
                             (@Configure _ forwards two_asked_twice).2).2)
    = ["alpha"; "beta"; "beta"; "alpha"] ∧
  ∃ new1 new2,
    required (self (@Configure _ backwards
                      (@Configure _ forwards two_asked_twice).2).2)
      = required (self two_asked_twice) ++ new1 ++ new2 ∧
    Name <$> new1 = (@range_Setup _ forwards (Setup (self two_asked_twice))).*1 ∧
    Name <$> new2 = (@range_Setup _ backwards (Setup (self two_asked_twice))).*1 ∧
    Name <$> new2 ≡ₚ Name <$> new1 ∧
    ∀ x1, x1 ∈ new1 →
          ∃ x2, x2 ∈ new2 ∧ Name x2 = Name x1 ∧ item_keys x2 ≡ₚ item_keys x1.
Proof.
  split; [vm_compute; reflexivity|].
  exact (@Configure_twice_doubles _ forwards backwards two_asked_twice
           _ _ _ _ eq_refl eq_refl).
Defined.


(** Two stores with three entries between them. *)
Lemma Configure_one_prompt_per_entry_witness :
  length (prompts (@Configure _ forwards two_asked).1.2)
    = declared_entries (Setup (self two_asked)) ∧
  length (answers (@Configure _ forwards two_asked).1.2)
    = declared_entries (Setup (self two_asked)).
Proof.
  exact (@Configure_one_prompt_per_entry _ forwards two_asked _ _ eq_refl).
Defined.

(** Nothing declared. *)
Lemma Configure_nothing_declared_witness :
  (Predefined nothing_asked).1.1 = Ok false ∧
  @Configure _ forwards nothing_asked = (Ok tt, [], nothing_asked).
Proof.
  split; [reflexivity|].
  apply (@Configure_nothing_declared _ forwards nothing_asked). reflexivity.
Defined.

(** The one secret sent is the one answer. *)
Lemma no_blank_secret_sent_witness :
  cs_Secret (entry_input created api_key) ≠ ""
  ∧ cs_Secret (entry_input created api_key)
      ∈ answers (@Configure _ forwards tokens_asked).1.2.
Proof.
  refine (@no_blank_secret_sent _ forwards tokens_asked _ _ _ _ _
            (entry_input created api_key) None eq_refl eq_refl eq_refl _).
  vm_compute. repeat constructor.
Defined.

(** Verbose with JSON. *)
Lemma GetStore_failure_witness :
  (@GetStoreCommand_Exec _ CommandMock.collaborators
     (CommandMock.get true true) CommandMock.healthy).1.1
  = Some (@ErrInvalidVerboseJSONCombo _ CommandMock.collaborators).
Proof.
  exact (proj1 (proj1 (@GetStore_failure _ CommandMock.collaborators
                         (CommandMock.get true true) CommandMock.healthy
                         _ _ _ eq_refl)
                  eq_refl)).
Defined.

(** JSON off: the store is printed as text. *)
Lemma GetStore_output_witness :
  ∃ o rest,
    (@GetStoreCommand_Exec _ CommandMock.collaborators
       (CommandMock.get false false) CommandMock.healthy).1.2
      = API_GetSecretStore (Input (CommandMock.get false false)) (Ok o) :: rest ∧
    filter is_call rest = [] ∧
    shown (Out_PrintSecretStore "" {| ID := "st0"; fastly_Name := "tokens" |}) = Some o.
Proof.
  refine (proj1 (@GetStore_output _ CommandMock.collaborators
                   (CommandMock.get false false) CommandMock.healthy
                   _ _ _ eq_refl)
            (Out_PrintSecretStore "" {| ID := "st0"; fastly_Name := "tokens" |})
            _ eq_refl).
  vm_compute. repeat constructor.
Defined.

(** The API refuses the deletion. *)
Lemma Delete_failure_witness :
  (@DeleteCommand_Exec _ CommandMock.collaborators
     (CommandMock.delete false true) CommandMock.broken).1.1
    = Some (errors_New "not found") ∧
  logged (@DeleteCommand_Exec _ CommandMock.collaborators
            (CommandMock.delete false true) CommandMock.broken).1.2
    = [errors_New "not found"] ∧
  filter is_output
    (@DeleteCommand_Exec _ CommandMock.collaborators
       (CommandMock.delete false true) CommandMock.broken).1.2 = [].
Proof.
  refine (proj1 (proj2 (@Delete_failure _ CommandMock.collaborators
                          (CommandMock.delete false true) CommandMock.broken
                          _ _ _ eq_refl))
            (input (CommandMock.delete false true)) (errors_New "not found") _).
  vm_compute. repeat constructor.
Defined.


End MoreChecks.
